(** * Scanline iterator over a run-length encoded image line

    Shallow embedding of [itk::ImageScanlineConstIterator<RLEImage<...>>]
    (include/itkRLEImageScanlineConstIterator.h) and proofs about its
    line-boundary jumps and its forward and backward steps. *)

From Stdlib Require Import ZArith List Lia Bool.
Import ListNotations.
Local Open Scope Z_scope.

(** ** Error monad

    Reading a [std::vector] outside its bounds and a failed debug assertion
    have no defined result; both are [None]. *)

Definition bind {A B : Type} (m : option A) (k : A -> option B) : option B :=
  match m with
  | Some a => k a
  | None => None
  end.

Notation "'do' x <- m ; k" := (bind m (fun x => k))
  (at level 10, x name, m at level 100, k at level 200).

(** ** Data model *)

Section Model.

Context {Pixel : Type}.

(** A run is the [std::pair] of the source: [fst] is [.first], the run
    length, and [snd] is [.second], the pixel value. *)
Definition Run : Type := Z * Pixel.

(** A line is the [std::vector] of its runs. *)
Definition Line : Type := list Run.

(** Indexing of the vector [m_RunLengthLine] points at: the index is
    converted to an unsigned size, so a negative index is as far out of
    bounds as one past the last run. *)
Definition run_at (l : Line) (i : Z) : option Run :=
  if i <? 0 then None else nth_error l (Z.to_nat i).

(** [m_RunLengthLine->size()] *)
Definition size (l : Line) : Z := Z.of_nat (length l).

Context {BufferIterator : Type}.

(** Modelled from the spec: the fields are declared in the base class
    (the region iterator of the RLE image), which is not part of this header.
    Section 3 of the specification gives them as integers: the absolute
    column, the clipped bounds of the current line, the index of the current
    run, the count of pixels left in it, the current line and the state of
    the line enumerator. The steps count them up and down without a guard, so
    they are signed here. *)
Record ImageScanlineConstIterator : Type := mkIterator {
  m_Index0 : Z;
  m_BeginIndex0 : Z;
  m_EndIndex0 : Z;
  m_RealIndex : Z;
  m_SegmentRemainder : Z;
  m_RunLengthLine : Line;
  m_BI : BufferIterator
}.

Definition set_Index0 (v : Z) (it : ImageScanlineConstIterator) :=
  mkIterator v (m_BeginIndex0 it) (m_EndIndex0 it) (m_RealIndex it)
    (m_SegmentRemainder it) (m_RunLengthLine it) (m_BI it).

Definition set_RealIndex (v : Z) (it : ImageScanlineConstIterator) :=
  mkIterator (m_Index0 it) (m_BeginIndex0 it) (m_EndIndex0 it) v
    (m_SegmentRemainder it) (m_RunLengthLine it) (m_BI it).

Definition set_SegmentRemainder (v : Z) (it : ImageScanlineConstIterator) :=
  mkIterator (m_Index0 it) (m_BeginIndex0 it) (m_EndIndex0 it) (m_RealIndex it)
    v (m_RunLengthLine it) (m_BI it).

Definition set_BI (v : BufferIterator) (it : ImageScanlineConstIterator) :=
  mkIterator (m_Index0 it) (m_BeginIndex0 it) (m_EndIndex0 it) (m_RealIndex it)
    (m_SegmentRemainder it) (m_RunLengthLine it) v.

(** ** Operations of the header *)

(** [GoToBeginOfLine]: the first run is read without a bounds check. *)
Definition GoToBeginOfLine (it : ImageScanlineConstIterator)
  : option ImageScanlineConstIterator :=
  let it := set_Index0 (m_BeginIndex0 it) it in
  let it := set_RealIndex 0 it in
  do r <- run_at (m_RunLengthLine it) (m_RealIndex it);
  Some (set_SegmentRemainder (fst r) it).

(** [GoToEndOfLine]: on a line without runs [size() - 1], stored in the
    run index, is [-1]. *)
Definition GoToEndOfLine (it : ImageScanlineConstIterator)
  : ImageScanlineConstIterator :=
  let it := set_Index0 (m_EndIndex0 it) it in
  let it := set_RealIndex (size (m_RunLengthLine it) - 1) it in
  set_SegmentRemainder 0 it.

(** [IsAtEndOfLine] *)
Definition IsAtEndOfLine (it : ImageScanlineConstIterator) : bool :=
  m_Index0 it =? m_EndIndex0 it.

(** [true] in a debug build, where [itkAssertInDebugAndIgnoreInReleaseMacro]
    checks its argument; [false] in a release build, where it does nothing. *)
Variable debug : bool.

(** [operator++] *)
Definition operator_inc (it : ImageScanlineConstIterator)
  : option ImageScanlineConstIterator :=
  if debug && IsAtEndOfLine it then None
  else
    let it := set_Index0 (m_Index0 it + 1) it in
    let it := set_SegmentRemainder (m_SegmentRemainder it - 1) it in
    if 0 <? m_SegmentRemainder it then Some it
    else if IsAtEndOfLine it then Some it
    else
      let it := set_RealIndex (m_RealIndex it + 1) it in
      do r <- run_at (m_RunLengthLine it) (m_RealIndex it);
      Some (set_SegmentRemainder (fst r) it).

(** [operator--] *)
Definition operator_dec (it : ImageScanlineConstIterator)
  : option ImageScanlineConstIterator :=
  let it := set_Index0 (m_Index0 it - 1) it in
  let it := set_SegmentRemainder (m_SegmentRemainder it + 1) it in
  do r <- run_at (m_RunLengthLine it) (m_RealIndex it);
  if m_SegmentRemainder it <=? fst r then Some it
  else
    let it := set_RealIndex (m_RealIndex it - 1) it in
    Some (set_SegmentRemainder 1 it).

(** The two collaborators of [NextLine] that live in the base class: the
    iterator [m_BI] over the lines of the region, with its increment and its
    end test, and the general seek [SetIndexInternal], which positions the
    iterator on a column of the line [m_BI] points at. *)
Class RegionIteratorBase : Type := {
  BI_inc : BufferIterator -> BufferIterator;
  BI_IsAtEnd : BufferIterator -> bool;
  SetIndexInternal :
    Z -> ImageScanlineConstIterator -> option ImageScanlineConstIterator
}.

(** [NextLine] *)
Definition NextLine `{RegionIteratorBase} (it : ImageScanlineConstIterator)
  : option ImageScanlineConstIterator :=
  let it := set_BI (BI_inc (m_BI it)) it in
  if negb (BI_IsAtEnd (m_BI it)) then SetIndexInternal (m_BeginIndex0 it) it
  else Some (set_Index0 (m_BeginIndex0 it) it).

(** [n] calls of [NextLine] in a row. *)
Fixpoint NextLine_repeat `{RegionIteratorBase} (n : nat)
    (it : ImageScanlineConstIterator) : option ImageScanlineConstIterator :=
  match n with
  | O => Some it
  | S n' => do it' <- NextLine it; NextLine_repeat n' it'
  end.

(** Modelled from the spec: [value()] of section 4.3, the read of the base
    class, returns [run[realIndex].value]. *)
Definition Value (it : ImageScanlineConstIterator) : option Pixel :=
  do r <- run_at (m_RunLengthLine it) (m_RealIndex it);
  Some (snd r).

(** ** Traversals

    The loops a caller writes around the operations. [fuel] bounds the
    number of steps. *)

(** Modelled from the spec: the forward traversal of section 8, property 1,
    [while (!it.IsAtEndOfLine()) { read it.Value(); ++it; }]. *)
Fixpoint scan_forward (fuel : nat) (it : ImageScanlineConstIterator)
  : option (list Pixel) :=
  if IsAtEndOfLine it then Some []
  else
    match fuel with
    | O => None
    | S fuel' =>
        do v <- Value it;
        do it' <- operator_inc it;
        do vs <- scan_forward fuel' it';
        Some (v :: vs)
    end.

(** Modelled from the spec: the backward traversal of section 8, property 3,
    [while (it.index0 != beginIndex0) { --it; read it.Value(); }]. *)
Fixpoint scan_backward (fuel : nat) (it : ImageScanlineConstIterator)
  : option (list Pixel) :=
  if m_Index0 it =? m_BeginIndex0 it then Some []
  else
    match fuel with
    | O => None
    | S fuel' =>
        do it' <- operator_dec it;
        do v <- Value it';
        do vs <- scan_backward fuel' it';
        Some (v :: vs)
    end.

(** The loop [while (!it.IsAtEndOfLine()) ++it;] of a caller, which returns
    the iterator it stops on. *)
Fixpoint run_forward (fuel : nat) (it : ImageScanlineConstIterator)
  : option ImageScanlineConstIterator :=
  if IsAtEndOfLine it then Some it
  else
    match fuel with
    | O => None
    | S fuel' => do it' <- operator_inc it; run_forward fuel' it'
    end.

(** The loop [while (it.index0 != beginIndex0) --it;] of a caller, which
    returns the iterator it stops on. *)
Fixpoint run_backward (fuel : nat) (it : ImageScanlineConstIterator)
  : option ImageScanlineConstIterator :=
  if m_Index0 it =? m_BeginIndex0 it then Some it
  else
    match fuel with
    | O => None
    | S fuel' => do it' <- operator_dec it; run_backward fuel' it'
    end.

(** [n] forward steps in a row, without a test in between. *)
Fixpoint inc_repeat (n : nat) (it : ImageScanlineConstIterator)
  : option ImageScanlineConstIterator :=
  match n with
  | O => Some it
  | S n' => do it' <- operator_inc it; inc_repeat n' it'
  end.

(** The calls a caller can make on one line. *)
Inductive LineCall : Type :=
  | CallInc
  | CallDec
  | CallGoToBeginOfLine
  | CallGoToEndOfLine.

Definition call (c : LineCall) (it : ImageScanlineConstIterator)
  : option ImageScanlineConstIterator :=
  match c with
  | CallInc => operator_inc it
  | CallDec => operator_dec it
  | CallGoToBeginOfLine => GoToBeginOfLine it
  | CallGoToEndOfLine => Some (GoToEndOfLine it)
  end.

(** A sequence of calls, first to last. *)
Fixpoint calls (cs : list LineCall) (it : ImageScanlineConstIterator)
  : option ImageScanlineConstIterator :=
  match cs with
  | [] => Some it
  | c :: cs' => do it' <- call c it; calls cs' it'
  end.

(** The same iterator with its column and the bounds of its region moved by
    [d] columns; the run index and the remainder stay. *)
Definition shift (d : Z) (it : ImageScanlineConstIterator)
  : ImageScanlineConstIterator :=
  mkIterator (m_Index0 it + d) (m_BeginIndex0 it + d) (m_EndIndex0 it + d)
    (m_RealIndex it) (m_SegmentRemainder it) (m_RunLengthLine it) (m_BI it).

(** ** Decoding of a line *)

(** The pixels of a line, one per column. *)
Fixpoint decode (l : Line) : list Pixel :=
  match l with
  | [] => []
  | r :: l' => repeat (snd r) (Z.to_nat (fst r)) ++ decode l'
  end.

(** The pixel at an absolute column. *)
Definition pixel_at (l : Line) (c : Z) : option Pixel :=
  if c <? 0 then None else nth_error (decode l) (Z.to_nat c).

(** The full width of a line: the sum of its run lengths. *)
Fixpoint width (l : Line) : Z :=
  match l with
  | [] => 0
  | r :: l' => fst r + width l'
  end.

(** The column at which run [j] starts. *)
Definition run_start (l : Line) (j : Z) : Z := width (firstn (Z.to_nat j) l).

(** Every run has a positive length (section 3 of the specification). *)
Definition well_formed (l : Line) : Prop := Forall (fun r => 1 <= fst r) l.

(** ** Invariants *)

(** The forward-consistent state, as section 3 of the specification words
    it. *)
Definition forward_consistent (it : ImageScanlineConstIterator) : Prop :=
  0 <= m_Index0 it < m_EndIndex0 it /\
  IsAtEndOfLine it = false /\
  exists r,
    run_at (m_RunLengthLine it) (m_RealIndex it) = Some r /\
    1 <= m_SegmentRemainder it <= fst r /\
    pixel_at (m_RunLengthLine it) (m_Index0 it) = Some (snd r).

(** The column one past the last pixel of run [j]. *)
Definition run_end (l : Line) (j : Z) : Z := run_start l (j + 1).

(** The remainder is exact: counted from [m_Index0], [m_SegmentRemainder]
    columns end exactly where run [m_RealIndex] ends. *)
Definition exact_remainder (it : ImageScanlineConstIterator) : Prop :=
  m_Index0 it + m_SegmentRemainder it =
    run_end (m_RunLengthLine it) (m_RealIndex it).

(** The forward-consistent state with an exact remainder. *)
Definition synchronized (it : ImageScanlineConstIterator) : Prop :=
  forward_consistent it /\ exact_remainder it.

(** The state the backward steps keep: as [synchronized], but the remainder
    may be [0], one column past the end of run [m_RealIndex]. *)
Definition backward_consistent (it : ImageScanlineConstIterator) : Prop :=
  exists r,
    run_at (m_RunLengthLine it) (m_RealIndex it) = Some r /\
    0 <= m_SegmentRemainder it <= fst r /\
    exact_remainder it.

(** The region lies inside the stored line. *)
Definition region_in_line (it : ImageScanlineConstIterator) : Prop :=
  0 <= m_BeginIndex0 it /\
  m_EndIndex0 it <= width (m_RunLengthLine it).

(** The region covers the whole stored line. *)
Definition covers_line (it : ImageScanlineConstIterator) : Prop :=
  m_BeginIndex0 it = 0 /\
  m_EndIndex0 it = width (m_RunLengthLine it).

(** The forward step reads the run array inside its bounds: when it leaves
    the current run before the end of the line, the line has a next run. *)
Definition next_run_in_bounds (it : ImageScanlineConstIterator) : Prop :=
  1 < m_SegmentRemainder it \/
  m_Index0 it + 1 = m_EndIndex0 it \/
  exists r, run_at (m_RunLengthLine it) (m_RealIndex it + 1) = Some r.

End Model.

Arguments ImageScanlineConstIterator : clear implicits.
Arguments RegionIteratorBase : clear implicits.

(** ** A model of the base class, for concrete runs of [NextLine] *)

Section BaseModel.

Context {Pixel : Type}.

(** Modelled from the spec: the line enumerator of section 4.2, which is the
    buffer iterator [m_BI] of the base class. It holds the lines of the region
    in traversal order, the position of the current one, and the bounds of
    the Region along the fastest axis (section 3: a Region is one [begin, end)
    pair per dimension). *)
Record LineEnumerator : Type := mkEnumerator {
  le_lines : list (@Line Pixel);
  le_pos : nat;
  le_begin0 : Z;
  le_end0 : Z
}.

(** Modelled from the spec: [advance()] moves to the next line position and
    becomes exhausted after the last one; an exhausted enumerator stays as it
    is (section 8, property 6). *)
Definition advance (e : LineEnumerator) : LineEnumerator :=
  if (le_pos e <? length (le_lines e))%nat
  then mkEnumerator (le_lines e) (S (le_pos e)) (le_begin0 e) (le_end0 e)
  else e.

(** Modelled from the spec: [isExhausted()] is true once the enumerator has
    advanced past the final line position. *)
Definition isExhausted (e : LineEnumerator) : bool :=
  (length (le_lines e) <=? le_pos e)%nat.

(** Modelled from the spec: [current()], the active line; nothing once
    exhausted. *)
Definition current (e : LineEnumerator) : option (@Line Pixel) :=
  nth_error (le_lines e) (le_pos e).

(** Modelled from the spec: the lookup of section 4.1. For a column [c] it
    returns the index of the owning run, counted from [j], and the number of
    pixels from [c] to the end of that run, [c] included; nothing for a column
    past the full width. *)
Fixpoint lookup (l : @Line Pixel) (c : Z) (j : Z) : option (Z * Z) :=
  match l with
  | [] => None
  | r :: l' =>
      if c <? fst r then Some (j, fst r - c)
      else lookup l' (c - fst r) (j + 1)
  end.

(** Modelled from the spec: [regionBoundsForLine] of section 6, the clipped
    column range of the Region on the line the enumerator points at. The
    Region is a box, so the range is its pair of bounds along the fastest
    axis on every line. *)
Definition regionBoundsForLine (e : LineEnumerator) : Z * Z :=
  (le_begin0 e, le_end0 e).

(** Modelled from the spec: the general seek of section 4.3, which is
    [SetIndexInternal] of the base class. It takes the line the enumerator
    points at, recomputes the clipped bounds for that line (the recomputation
    section 4.4 describes for [nextLine()], whose only call is this one), and
    sets the column, the run index and the remainder from the lookup; a
    column outside the line has no defined result. *)
Definition seek (c : Z) (it : ImageScanlineConstIterator Pixel LineEnumerator)
  : option (ImageScanlineConstIterator Pixel LineEnumerator) :=
  do l <- current (m_BI it);
  do p <- (if c <? 0 then None else lookup l c 0);
  Some (mkIterator c (fst (regionBoundsForLine (m_BI it)))
          (snd (regionBoundsForLine (m_BI it))) (fst p) (snd p)
          l (m_BI it)).

#[export] Instance enumerated_base : RegionIteratorBase Pixel LineEnumerator := {
  BI_inc := advance;
  BI_IsAtEnd := isExhausted;
  SetIndexInternal := seek
}.

End BaseModel.

Arguments LineEnumerator : clear implicits.

(** ** Sample lines and iterators *)

(** Runs [(3,A),(2,B),(4,C)] of section 8, property 5, with pixel values
    [A = 1], [B = 2], [C = 3]. *)
Definition line_ABC : @Line Z := [(3, 1); (2, 2); (4, 3)].

(** One run [(10,X)] of section 8, property 4, with [X = 7]. *)
Definition line_X : @Line Z := [(10, 7)].

(** Three runs of two pixels each. *)
Definition line_222 : @Line Z := [(2, 1); (2, 2); (2, 3)].

(** An iterator over the whole of [line_ABC], not yet positioned. *)
Definition it_ABC : ImageScanlineConstIterator Z unit :=
  mkIterator 0 0 9 0 0 line_ABC tt.

(** An iterator over columns [3..6] of [line_X], on the last column of the
    region. *)
Definition it_X_last : ImageScanlineConstIterator Z unit :=
  mkIterator 6 3 7 0 4 line_X tt.

(** An iterator over columns [0..3] of [line_222]: the region ends inside the
    line. *)
Definition it_222_clipped : ImageScanlineConstIterator Z unit :=
  mkIterator 0 0 4 0 2 line_222 tt.

(** An iterator on column 0 of [line_ABC] whose remainder is 1 although the
    first run has three pixels. *)
Definition it_ABC_short : ImageScanlineConstIterator Z unit :=
  mkIterator 0 0 9 0 1 line_ABC tt.

(** An iterator over the whole of [line_ABC] on column 2, the last pixel of
    the first run. *)
Definition it_ABC_2 : ImageScanlineConstIterator Z unit :=
  mkIterator 2 0 9 0 1 line_ABC tt.

(** An iterator over the whole of [line_ABC] on column 3, the first pixel of
    the second run (section 8, property 5). *)
Definition it_ABC_3 : ImageScanlineConstIterator Z unit :=
  mkIterator 3 0 9 1 2 line_ABC tt.

(** Two runs, nine pixels. *)
Definition line_45 : @Line Z := [(4, 5); (5, 6)].

(** An iterator on the first of the two lines of a region, each nine pixels
    wide. *)
Definition it_two_lines : ImageScanlineConstIterator Z (LineEnumerator Z) :=
  mkIterator 0 0 9 0 3 line_ABC (mkEnumerator [line_ABC; line_45] 0 0 9).

(** An iterator at the end of the second and last line of that region. *)
Definition it_last_line : ImageScanlineConstIterator Z (LineEnumerator Z) :=
  mkIterator 9 0 9 1 0 line_45 (mkEnumerator [line_ABC; line_45] 1 0 9).

(** An iterator over columns [3..6] of [line_X], on the first column of the
    region, as a seek leaves it. *)
Definition it_X_first : ImageScanlineConstIterator Z unit :=
  mkIterator 3 3 7 0 7 line_X tt.

(** An iterator over columns [3..6] of [line_X] that stepped to the end of the
    line. *)
Definition it_X_end : ImageScanlineConstIterator Z unit :=
  mkIterator 7 3 7 0 3 line_X tt.

(** An iterator over columns [1..4] of [line_ABC], not yet positioned. *)
Definition it_ABC_inner : ImageScanlineConstIterator Z unit :=
  mkIterator 0 1 5 0 0 line_ABC tt.

(** An iterator over columns [3..8] of [line_ABC], not yet positioned. *)
Definition it_ABC_tail : ImageScanlineConstIterator Z unit :=
  mkIterator 0 3 9 0 0 line_ABC tt.

(** One run of one pixel. *)
Definition line_1 : @Line Z := [(1, 5)].

(** An iterator over the single column of [line_1], the only line of its
    region, not yet positioned. *)
Definition it_1 : ImageScanlineConstIterator Z (LineEnumerator Z) :=
  mkIterator 0 0 1 0 0 line_1 (mkEnumerator [line_1] 0 0 1).

(** One run of three pixels. *)
Definition line_3 : @Line Z := [(3, 7)].

(** An iterator over the whole of [line_3], the only line of its region, not
    yet positioned. *)
Definition it_3 : ImageScanlineConstIterator Z (LineEnumerator Z) :=
  mkIterator 0 0 3 0 0 line_3 (mkEnumerator [line_3] 0 0 3).

(** An iterator over the whole of [line_3] on column 0 with remainder 1,
    although the run has three pixels. *)
Definition it_3_short : ImageScanlineConstIterator Z (LineEnumerator Z) :=
  mkIterator 0 0 3 0 1 line_3 (mkEnumerator [line_3] 1 0 3).

(** An iterator on [line_3] whose region is empty and begins at the start of
    the line. *)
Definition it_3_empty_region : ImageScanlineConstIterator Z unit :=
  mkIterator 0 0 0 0 0 line_3 tt.

(** An iterator on a line without runs. *)
Definition it_empty : ImageScanlineConstIterator Z unit :=
  mkIterator 0 0 0 0 0 [] tt.

(** * Proofs *)

Section Proofs.

Context {Pixel BufferIterator : Type}.
Variable debug : bool.

Local Abbreviation Iterator := (ImageScanlineConstIterator Pixel BufferIterator).
Local Abbreviation PLine := (@Line Pixel).

(** ** Runs and columns *)

Lemma run_at_nth (l : PLine) (j : Z) (r : Run) :
  run_at l j = Some r <-> 0 <= j /\ nth_error l (Z.to_nat j) = Some r.
Proof.
  unfold run_at. destruct (Z.ltb_spec j 0); split.
  - discriminate.
  - intros [Hj _]. lia.
  - auto.
  - intros [_ Hn]. exact Hn.
Qed.

Lemma run_at_bounds (l : PLine) (j : Z) (r : Run) :
  run_at l j = Some r -> 0 <= j < size l.
Proof.
  intros H. apply run_at_nth in H. destruct H as [Hj Hn].
  assert (Hlt : (Z.to_nat j < length l)%nat)
    by (apply nth_error_Some; congruence).
  unfold size. lia.
Qed.

Lemma run_at_in_bounds (l : PLine) (j : Z) :
  0 <= j < size l -> exists r, run_at l j = Some r.
Proof.
  unfold size. intros Hj.
  destruct (nth_error l (Z.to_nat j)) as [r|] eqn:Hn.
  - exists r. apply run_at_nth. split; [lia | exact Hn].
  - apply nth_error_None in Hn. lia.
Qed.

Lemma well_formed_run (l : PLine) (j : Z) (r : Run) :
  well_formed l -> run_at l j = Some r -> 1 <= fst r.
Proof.
  unfold well_formed. intros Hwf H. apply run_at_nth in H.
  destruct H as [_ Hn]. apply nth_error_In in Hn.
  rewrite Forall_forall in Hwf. exact (Hwf r Hn).
Qed.

Lemma width_firstn_S (l : PLine) (n : nat) (r : Run) :
  nth_error l n = Some r ->
  width (firstn (S n) l) = width (firstn n l) + fst r.
Proof.
  revert n. induction l as [|r0 l IH]; intros [|n] Hn; simpl in Hn;
    try discriminate.
  - injection Hn as ->. simpl. destruct l; simpl; lia.
  - specialize (IH n Hn). cbn [firstn width] in *. lia.
Qed.

Lemma run_start_0 (l : PLine) : run_start l 0 = 0.
Proof. reflexivity. Qed.

Lemma run_end_eq (l : PLine) (j : Z) (r : Run) :
  run_at l j = Some r -> run_end l j = run_start l j + fst r.
Proof.
  intros H. apply run_at_nth in H. destruct H as [Hj Hn].
  unfold run_end, run_start.
  replace (Z.to_nat (j + 1)) with (S (Z.to_nat j)) by lia.
  apply width_firstn_S. exact Hn.
Qed.

Lemma run_start_size (l : PLine) : run_start l (size l) = width l.
Proof.
  unfold run_start, size. rewrite Nat2Z.id, firstn_all. reflexivity.
Qed.

Lemma width_nonneg (l : PLine) : well_formed l -> 0 <= width l.
Proof.
  induction 1 as [|r l Hr _ IH]; simpl; lia.
Qed.

Lemma well_formed_firstn (l : PLine) (n : nat) :
  well_formed l -> well_formed (firstn n l).
Proof.
  unfold well_formed. intros H. revert n.
  induction H as [|r l Hr _ IH]; intros [|n]; simpl; constructor; auto.
Qed.

Lemma run_start_nonneg (l : PLine) (j : Z) :
  well_formed l -> 0 <= run_start l j.
Proof.
  intros H. apply width_nonneg, well_formed_firstn, H.
Qed.

(** The last run ends at the full width, so a run that ends before it has a
    successor. *)
Lemma next_run_exists (l : PLine) (j : Z) (r : Run) :
  run_at l j = Some r -> run_end l j <> width l ->
  exists r', run_at l (j + 1) = Some r'.
Proof.
  intros H Hne. pose proof (run_at_bounds _ _ _ H) as Hb.
  apply run_at_in_bounds.
  destruct (Z.eq_dec (j + 1) (size l)) as [E|E]; [|lia].
  exfalso. apply Hne. unfold run_end. rewrite E. apply run_start_size.
Qed.

(** Decoding puts the value of run [n] on every column of its range. *)
Lemma decode_nth (l : PLine) :
  well_formed l ->
  forall (n : nat) (r : Run) (c : Z),
    nth_error l n = Some r ->
    width (firstn n l) <= c < width (firstn n l) + fst r ->
    nth_error (decode l) (Z.to_nat c) = Some (snd r).
Proof.
  induction 1 as [|r0 l Hr0 Hwf IH]; intros [|n] r c Hn Hc; simpl in Hn;
    try discriminate.
  - injection Hn as ->. simpl in Hc. simpl.
    rewrite nth_error_app1 by (rewrite repeat_length; lia).
    apply nth_error_repeat. lia.
  - cbn [firstn width] in Hc.
    pose proof (width_nonneg _ (well_formed_firstn l n Hwf)) as Hw.
    simpl. rewrite nth_error_app2 by (rewrite repeat_length; lia).
    rewrite repeat_length.
    replace (Z.to_nat c - Z.to_nat (fst r0))%nat
      with (Z.to_nat (c - fst r0)) by lia.
    apply (IH n r); [exact Hn | lia].
Qed.

Lemma pixel_in_run (l : PLine) (j : Z) (r : Run) (c : Z) :
  well_formed l -> run_at l j = Some r ->
  run_start l j <= c < run_end l j ->
  pixel_at l c = Some (snd r).
Proof.
  intros Hwf H Hc. rewrite (run_end_eq _ _ _ H) in Hc.
  pose proof (run_start_nonneg l j Hwf) as H0.
  apply run_at_nth in H. destruct H as [Hj Hn].
  unfold pixel_at. destruct (Z.ltb_spec c 0); [lia|].
  apply (decode_nth l Hwf (Z.to_nat j) r c Hn Hc).
Qed.

Lemma decode_length (l : PLine) :
  well_formed l -> length (decode l) = Z.to_nat (width l).
Proof.
  induction 1 as [|r l Hr Hwf IH]; simpl; [reflexivity|].
  rewrite length_app, repeat_length, IH.
  pose proof (width_nonneg l Hwf). lia.
Qed.

(** ** Single operations *)

(** Reduces the field updates of an operation to the fields they set. *)
Ltac fields :=
  unfold set_RealIndex, set_SegmentRemainder, set_Index0, set_BI;
  cbn [m_Index0 m_BeginIndex0 m_EndIndex0 m_RealIndex m_SegmentRemainder
       m_RunLengthLine m_BI].

(** The three outcomes of the forward step. *)
Lemma inc_same_run (it : Iterator) :
  IsAtEndOfLine it = false ->
  0 < m_SegmentRemainder it - 1 ->
  operator_inc debug it =
    Some (mkIterator (m_Index0 it + 1) (m_BeginIndex0 it) (m_EndIndex0 it)
            (m_RealIndex it) (m_SegmentRemainder it - 1)
            (m_RunLengthLine it) (m_BI it)).
Proof.
  intros Hend Hpos. unfold operator_inc. rewrite Hend, andb_false_r.
  unfold IsAtEndOfLine. fields.
  destruct (Z.ltb_spec 0 (m_SegmentRemainder it - 1)); [reflexivity | lia].
Qed.

Lemma inc_end_of_line (it : Iterator) :
  IsAtEndOfLine it = false ->
  m_SegmentRemainder it - 1 <= 0 ->
  m_Index0 it + 1 = m_EndIndex0 it ->
  operator_inc debug it =
    Some (mkIterator (m_Index0 it + 1) (m_BeginIndex0 it) (m_EndIndex0 it)
            (m_RealIndex it) (m_SegmentRemainder it - 1)
            (m_RunLengthLine it) (m_BI it)).
Proof.
  intros Hend Hle Heq. unfold operator_inc. rewrite Hend, andb_false_r.
  unfold IsAtEndOfLine. fields.
  destruct (Z.ltb_spec 0 (m_SegmentRemainder it - 1)); [lia|].
  rewrite (proj2 (Z.eqb_eq _ _) Heq). reflexivity.
Qed.

Lemma inc_next_run (it : Iterator) (r : Run) :
  IsAtEndOfLine it = false ->
  m_SegmentRemainder it - 1 <= 0 ->
  m_Index0 it + 1 <> m_EndIndex0 it ->
  run_at (m_RunLengthLine it) (m_RealIndex it + 1) = Some r ->
  operator_inc debug it =
    Some (mkIterator (m_Index0 it + 1) (m_BeginIndex0 it) (m_EndIndex0 it)
            (m_RealIndex it + 1) (fst r)
            (m_RunLengthLine it) (m_BI it)).
Proof.
  intros Hend Hle Hne Hr. unfold operator_inc. rewrite Hend, andb_false_r.
  unfold IsAtEndOfLine. fields.
  destruct (Z.ltb_spec 0 (m_SegmentRemainder it - 1)); [lia|].
  rewrite (proj2 (Z.eqb_neq _ _) Hne), Hr. reflexivity.
Qed.

(** The two outcomes of the backward step. *)
Lemma dec_same_run (it : Iterator) (r : Run) :
  run_at (m_RunLengthLine it) (m_RealIndex it) = Some r ->
  m_SegmentRemainder it + 1 <= fst r ->
  operator_dec it =
    Some (mkIterator (m_Index0 it - 1) (m_BeginIndex0 it) (m_EndIndex0 it)
            (m_RealIndex it) (m_SegmentRemainder it + 1)
            (m_RunLengthLine it) (m_BI it)).
Proof.
  intros Hr Hle. unfold operator_dec. fields. rewrite Hr. cbn [bind].
  destruct (Z.leb_spec (m_SegmentRemainder it + 1) (fst r));
    [reflexivity | lia].
Qed.

Lemma dec_previous_run (it : Iterator) (r : Run) :
  run_at (m_RunLengthLine it) (m_RealIndex it) = Some r ->
  fst r < m_SegmentRemainder it + 1 ->
  operator_dec it =
    Some (mkIterator (m_Index0 it - 1) (m_BeginIndex0 it) (m_EndIndex0 it)
            (m_RealIndex it - 1) 1
            (m_RunLengthLine it) (m_BI it)).
Proof.
  intros Hr Hlt. unfold operator_dec. fields. rewrite Hr. cbn [bind].
  destruct (Z.leb_spec (m_SegmentRemainder it + 1) (fst r));
    [lia | reflexivity].
Qed.

Lemma goto_begin_eq (it : Iterator) (r : Run) :
  run_at (m_RunLengthLine it) 0 = Some r ->
  GoToBeginOfLine it =
    Some (mkIterator (m_BeginIndex0 it) (m_BeginIndex0 it) (m_EndIndex0 it)
            0 (fst r) (m_RunLengthLine it) (m_BI it)).
Proof.
  intros Hr. unfold GoToBeginOfLine. fields. rewrite Hr. reflexivity.
Qed.

(** ** Steps from a synchronized iterator *)

Lemma synchronized_value (it : Iterator) :
  synchronized it ->
  exists v, Value it = Some v /\
            nth_error (decode (m_RunLengthLine it)) (Z.to_nat (m_Index0 it))
              = Some v.
Proof.
  intros [(Hidx & _ & r & Hr & _ & Hpix) _]. exists (snd r). split.
  - unfold Value. rewrite Hr. reflexivity.
  - unfold pixel_at in Hpix.
    destruct (Z.ltb_spec (m_Index0 it) 0); [lia | exact Hpix].
Qed.

(** From a synchronized iterator inside the stored line the forward step is
    defined, moves one column, and is synchronized again unless it reaches the
    end of the line. *)
Lemma inc_synchronized (it : Iterator) :
  well_formed (m_RunLengthLine it) ->
  m_EndIndex0 it <= width (m_RunLengthLine it) ->
  synchronized it ->
  exists it',
    operator_inc debug it = Some it' /\
    m_RunLengthLine it' = m_RunLengthLine it /\
    m_BeginIndex0 it' = m_BeginIndex0 it /\
    m_EndIndex0 it' = m_EndIndex0 it /\
    m_Index0 it' = m_Index0 it + 1 /\
    (m_Index0 it + 1 <> m_EndIndex0 it -> synchronized it').
Proof.
  intros Hwf Hw [(Hidx & Hend & r & Hr & Hsr & Hpix) Hex].
  unfold exact_remainder in Hex.
  pose proof (run_end_eq _ _ _ Hr) as Hre.
  destruct (Z.ltb_spec 0 (m_SegmentRemainder it - 1)) as [Hpos|Hle].
  - eexists. split; [apply inc_same_run; assumption|].
    fields. repeat (split; [reflexivity|]).
    intros Hne. unfold synchronized, forward_consistent, exact_remainder,
      IsAtEndOfLine. fields.
    split; [|lia]. split; [lia|]. split; [apply Z.eqb_neq; lia|].
    exists r. split; [exact Hr|]. split; [lia|].
    apply (pixel_in_run _ (m_RealIndex it)); [assumption .. | lia].
  - destruct (Z.eq_dec (m_Index0 it + 1) (m_EndIndex0 it)) as [Heq|Hne].
    + eexists. split; [apply inc_end_of_line; assumption|].
      fields. repeat (split; [reflexivity|]). intros Hne. contradiction.
    + destruct (next_run_exists _ _ _ Hr) as [r' Hr']; [lia|].
      pose proof (run_end_eq _ _ _ Hr') as Hre'. unfold run_end in Hre, Hex.
      pose proof (well_formed_run _ _ _ Hwf Hr') as Hlen.
      eexists. split; [apply (inc_next_run it r'); assumption|].
      fields. repeat (split; [reflexivity|]).
      intros _. unfold synchronized, forward_consistent, exact_remainder,
        IsAtEndOfLine. fields.
      split; [|lia]. split; [lia|]. split; [apply Z.eqb_neq; lia|].
      exists r'. split; [exact Hr'|]. split; [lia|].
      apply (pixel_in_run _ (m_RealIndex it + 1)); [assumption .. | lia].
Qed.

(** A synchronized iterator inside the stored line reads the run array inside
    its bounds on the forward step. *)
Lemma synchronized_next_run_in_bounds (it : Iterator) :
  m_EndIndex0 it <= width (m_RunLengthLine it) ->
  synchronized it -> next_run_in_bounds it.
Proof.
  intros Hw [(Hidx & Hend & r & Hr & Hsr & Hpix) Hex].
  unfold exact_remainder in Hex. unfold next_run_in_bounds.
  destruct (Z.ltb_spec 1 (m_SegmentRemainder it)); [left; assumption|].
  destruct (Z.eq_dec (m_Index0 it + 1) (m_EndIndex0 it));
    [right; left; assumption|].
  right; right. apply (next_run_exists _ _ _ Hr). lia.
Qed.

(** From a backward-consistent iterator past column 0 the backward step is
    defined, moves one column back, is backward consistent again, and the
    value it then reads is the pixel of the column it stands on. *)
Lemma dec_backward_consistent (it : Iterator) :
  well_formed (m_RunLengthLine it) ->
  backward_consistent it ->
  0 < m_Index0 it ->
  exists it' v,
    operator_dec it = Some it' /\
    m_RunLengthLine it' = m_RunLengthLine it /\
    m_BeginIndex0 it' = m_BeginIndex0 it /\
    m_EndIndex0 it' = m_EndIndex0 it /\
    m_Index0 it' = m_Index0 it - 1 /\
    backward_consistent it' /\
    Value it' = Some v /\
    pixel_at (m_RunLengthLine it) (m_Index0 it - 1) = Some v.
Proof.
  intros Hwf (r & Hr & Hsr & Hex) Hpos. unfold exact_remainder in Hex.
  pose proof (run_end_eq _ _ _ Hr) as Hre.
  pose proof (run_at_bounds _ _ _ Hr) as Hb.
  destruct (Z.leb_spec (m_SegmentRemainder it + 1) (fst r)) as [Hle|Hgt].
  - eexists. exists (snd r). split; [apply (dec_same_run it r); assumption|].
    unfold backward_consistent, exact_remainder, Value. fields.
    repeat (split; [reflexivity|]). split; [|split].
    + exists r. split; [exact Hr|]. split; lia.
    + rewrite Hr. reflexivity.
    + apply (pixel_in_run _ (m_RealIndex it)); [assumption .. | lia].
  - assert (Hri : m_RealIndex it <> 0).
    { intros E. rewrite Hre, E, run_start_0 in Hex. lia. }
    destruct (run_at_in_bounds (m_RunLengthLine it) (m_RealIndex it - 1))
      as [r' Hr']; [lia|].
    pose proof (run_end_eq _ _ _ Hr') as Hre'. unfold run_end in Hre'.
    replace (m_RealIndex it - 1 + 1) with (m_RealIndex it) in Hre' by lia.
    pose proof (well_formed_run _ _ _ Hwf Hr') as Hlen.
    eexists. exists (snd r').
    split; [apply (dec_previous_run it r); assumption|].
    unfold backward_consistent, exact_remainder, Value, run_end. fields.
    replace (m_RealIndex it - 1 + 1) with (m_RealIndex it) by lia.
    repeat (split; [reflexivity|]). split; [|split].
    + exists r'. split; [exact Hr'|]. split; lia.
    + rewrite Hr'. reflexivity.
    + apply (pixel_in_run _ (m_RealIndex it - 1)); [assumption ..|].
      unfold run_end.
      replace (m_RealIndex it - 1 + 1) with (m_RealIndex it) by lia. lia.
Qed.

(** ** Whole traversals *)

Lemma skipn_cons_nth {A : Type} (d : list A) (k : nat) (x : A) :
  nth_error d k = Some x -> skipn k d = x :: skipn (S k) d.
Proof.
  revert k. induction d as [|a d IH]; intros [|k] H; simpl in H;
    try discriminate.
  - injection H as ->. reflexivity.
  - apply (IH k H).
Qed.

Lemma firstn_snoc_nth {A : Type} (d : list A) (k : nat) (x : A) :
  nth_error d k = Some x -> firstn (S k) d = firstn k d ++ [x].
Proof.
  revert k. induction d as [|a d IH]; intros [|k] H; simpl in H;
    try discriminate.
  - injection H as ->. reflexivity.
  - cbn [firstn app]. f_equal. apply (IH k H).
Qed.

(** The forward scan of a region inside the stored line reads the decoded
    pixels of the columns from [m_Index0] up to [m_EndIndex0]. *)
Lemma scan_forward_synchronized (n : nat) :
  forall (it : Iterator) (fuel : nat),
    well_formed (m_RunLengthLine it) ->
    m_EndIndex0 it <= width (m_RunLengthLine it) ->
    IsAtEndOfLine it = true \/ synchronized it ->
    m_EndIndex0 it - m_Index0 it = Z.of_nat n ->
    (n <= fuel)%nat ->
    scan_forward debug fuel it =
      Some (firstn n (skipn (Z.to_nat (m_Index0 it))
                        (decode (m_RunLengthLine it)))).
Proof.
  induction n as [|n IH]; intros it fuel Hwf Hw Hst Hn Hfuel.
  - assert (Hend : IsAtEndOfLine it = true)
      by (unfold IsAtEndOfLine; apply Z.eqb_eq; lia).
    destruct fuel; simpl; rewrite Hend; reflexivity.
  - assert (Hend : IsAtEndOfLine it = false)
      by (unfold IsAtEndOfLine; apply Z.eqb_neq; lia).
    destruct Hst as [Hst|Hsync]; [congruence|].
    destruct fuel as [|fuel]; [lia|].
    destruct (synchronized_value it Hsync) as (v & Hv & Hnth).
    pose proof Hsync as [(Hidx & _) _].
    destruct (inc_synchronized it Hwf Hw Hsync)
      as (it' & Hinc & Hl & Hb & He & Hi & Hnext).
    cbn [scan_forward]. rewrite Hend, Hv. cbn [bind]. rewrite Hinc. cbn [bind].
    rewrite (IH it' fuel); [| rewrite Hl; assumption | rewrite Hl, He; assumption
                            | | lia | lia].
    + cbn [bind]. rewrite Hl, Hi.
      replace (Z.to_nat (m_Index0 it + 1)) with (S (Z.to_nat (m_Index0 it)))
        by lia.
      rewrite (skipn_cons_nth _ _ _ Hnth). reflexivity.
    + destruct (Z.eq_dec (m_Index0 it + 1) (m_EndIndex0 it)) as [E|E].
      * left. unfold IsAtEndOfLine. apply Z.eqb_eq. lia.
      * right. apply Hnext, E.
Qed.

(** The backward scan of a region that begins at column 0 reads, last column
    first, the decoded pixels of the columns before [m_Index0]. *)
Lemma scan_backward_consistent (n : nat) :
  forall (it : Iterator) (fuel : nat),
    well_formed (m_RunLengthLine it) ->
    backward_consistent it ->
    m_BeginIndex0 it = 0 ->
    m_Index0 it = Z.of_nat n ->
    (n <= fuel)%nat ->
    scan_backward fuel it =
      Some (rev (firstn n (decode (m_RunLengthLine it)))).
Proof.
  induction n as [|n IH]; intros it fuel Hwf Hbc Hb Hn Hfuel.
  - assert (E : (m_Index0 it =? m_BeginIndex0 it) = true)
      by (apply Z.eqb_eq; lia).
    destruct fuel; simpl; rewrite E; reflexivity.
  - assert (E : (m_Index0 it =? m_BeginIndex0 it) = false)
      by (apply Z.eqb_neq; lia).
    destruct fuel as [|fuel]; [lia|].
    destruct (dec_backward_consistent it Hwf Hbc)
      as (it' & v & Hdec & Hl & Hb' & He & Hi & Hbc' & Hv & Hpix); [lia|].
    cbn [scan_backward]. rewrite E, Hdec. cbn [bind]. rewrite Hv. cbn [bind].
    rewrite (IH it' fuel); [| rewrite Hl; assumption | assumption | lia
                            | lia | lia].
    cbn [bind]. rewrite Hl.
    unfold pixel_at in Hpix.
    destruct (Z.ltb_spec (m_Index0 it - 1) 0); [lia|].
    replace (Z.to_nat (m_Index0 it - 1)) with n in Hpix by lia.
    rewrite (firstn_snoc_nth _ _ _ Hpix), rev_unit. reflexivity.
Qed.

(** ** Owning run of a column *)

Lemma run_start_mono (l : PLine) :
  well_formed l ->
  forall a b : nat, (a <= b)%nat ->
    width (firstn a l) <= width (firstn b l).
Proof.
  induction 1 as [|r l Hr Hwf IH]; intros a b Hab.
  - rewrite !firstn_nil. lia.
  - destruct a as [|a], b as [|b]; cbn [firstn width]; try lia.
    + pose proof (width_nonneg _ (well_formed_firstn l b Hwf)). lia.
    + specialize (IH a b). lia.
Qed.

(** Every column of the line lies in the range of some run. *)
Lemma owning_run_exists (l : PLine) :
  well_formed l ->
  forall i, 0 <= i < width l ->
    exists j r, run_at l j = Some r /\ run_start l j <= i < run_end l j.
Proof.
  induction 1 as [|r0 l Hr0 Hwf IH]; intros i Hi; simpl in Hi; [lia|].
  destruct (Z.ltb_spec i (fst r0)) as [Hlt|Hge].
  - exists 0, r0. split; [reflexivity|].
    unfold run_end, run_start. simpl. destruct l; simpl; lia.
  - destruct (IH (i - fst r0)) as (j & r & Hr & Hrange); [lia|].
    pose proof (run_at_bounds _ _ _ Hr) as Hb.
    exists (j + 1), r. split.
    + apply run_at_nth. apply run_at_nth in Hr. destruct Hr as [Hj Hn].
      split; [lia|].
      replace (Z.to_nat (j + 1)) with (S (Z.to_nat j)) by lia. exact Hn.
    + unfold run_end, run_start in *.
      replace (Z.to_nat (j + 1 + 1)) with (S (Z.to_nat (j + 1))) by lia.
      replace (Z.to_nat (j + 1)) with (S (Z.to_nat j)) in * by lia.
      cbn [firstn width] in *. lia.
Qed.

(** The ranges of two different runs do not overlap. *)
Lemma owning_run_unique (l : PLine) (i j j' : Z) (r r' : Run) :
  well_formed l ->
  run_at l j = Some r -> run_start l j <= i < run_end l j ->
  run_at l j' = Some r' -> run_start l j' <= i < run_end l j' ->
  j' = j.
Proof.
  intros Hwf Hr Hi Hr' Hi'.
  pose proof (run_at_bounds _ _ _ Hr) as Hb.
  pose proof (run_at_bounds _ _ _ Hr') as Hb'.
  unfold run_end, run_start in *.
  destruct (Z.lt_trichotomy j j') as [Hlt|[Heq|Hgt]]; [| auto |].
  - pose proof (run_start_mono l Hwf (Z.to_nat (j + 1)) (Z.to_nat j')). lia.
  - pose proof (run_start_mono l Hwf (Z.to_nat (j' + 1)) (Z.to_nat j)). lia.
Qed.

(** ** Line-boundary jumps from a well-formed line *)

Lemma goto_begin_synchronized (it : Iterator) (r : Run) :
  run_at (m_RunLengthLine it) 0 = Some r -> 1 <= fst r ->
  m_BeginIndex0 it = 0 -> 0 < m_EndIndex0 it ->
  synchronized
    (mkIterator (m_BeginIndex0 it) (m_BeginIndex0 it) (m_EndIndex0 it)
       0 (fst r) (m_RunLengthLine it) (m_BI it)).
Proof.
  intros Hr Hlen Hb He.
  assert (Hpix : pixel_at (m_RunLengthLine it) 0 = Some (snd r)).
  { apply run_at_nth in Hr. destruct Hr as [_ Hn].
    destruct (m_RunLengthLine it) as [|r0 l]; [discriminate|].
    simpl in Hn. injection Hn as ->. unfold pixel_at.
    cbn [Z.ltb Z.compare Z.to_nat decode].
    destruct (Z.to_nat (fst r)) eqn:E; [lia | reflexivity]. }
  unfold synchronized, forward_consistent, exact_remainder, IsAtEndOfLine.
  cbn [m_Index0 m_EndIndex0 m_RealIndex m_SegmentRemainder m_RunLengthLine].
  rewrite Hb, (run_end_eq _ _ _ Hr), run_start_0.
  split; [|lia].
  split; [lia|]. split; [apply Z.eqb_neq; lia|].
  exists r. repeat split; try assumption; lia.
Qed.

Lemma first_run (l : PLine) :
  l <> [] -> exists r, run_at l 0 = Some r.
Proof.
  destruct l as [|r l]; [congruence|]. exists r. reflexivity.
Qed.

Lemma width_positive (l : PLine) :
  l <> [] -> well_formed l -> 0 < width l.
Proof.
  intros Hne Hwf. destruct l as [|r l]; [congruence|].
  inversion Hwf as [|r' l' Hr Hwf']; subst.
  pose proof (width_nonneg l Hwf'). simpl. lia.
Qed.

Lemma goto_end_backward_consistent (it : Iterator) :
  m_RunLengthLine it <> [] ->
  well_formed (m_RunLengthLine it) ->
  m_EndIndex0 it = width (m_RunLengthLine it) ->
  backward_consistent (GoToEndOfLine it).
Proof.
  intros Hne Hwf He.
  destruct (run_at_in_bounds (m_RunLengthLine it)
              (size (m_RunLengthLine it) - 1)) as [r Hr].
  { unfold size. destruct (m_RunLengthLine it); [congruence|].
    simpl length. lia. }
  pose proof (well_formed_run _ _ _ Hwf Hr) as Hlen.
  exists r. unfold exact_remainder, GoToEndOfLine, run_end. fields.
  replace (size (m_RunLengthLine it) - 1 + 1) with (size (m_RunLengthLine it))
    by lia.
  rewrite run_start_size.
  split; [exact Hr|]. split; lia.
Qed.

(** C1. Forward step of an iterator that is not at the end of its line: the
    column goes up by one and the remainder down by one. When the remainder
    is still positive nothing else changes. Otherwise, when the column has
    reached [m_EndIndex0], the run index is unchanged and the remainder keeps
    its decremented value. Otherwise the run index goes up by one and the
    remainder becomes the length of the run it now names. *)
Theorem operator_inc_step (it : Iterator) :
  IsAtEndOfLine it = false ->
  (0 < m_SegmentRemainder it - 1 ->
     operator_inc debug it =
       Some (mkIterator (m_Index0 it + 1) (m_BeginIndex0 it) (m_EndIndex0 it)
               (m_RealIndex it) (m_SegmentRemainder it - 1)
               (m_RunLengthLine it) (m_BI it))) /\
  (m_SegmentRemainder it - 1 <= 0 -> m_Index0 it + 1 = m_EndIndex0 it ->
     operator_inc debug it =
       Some (mkIterator (m_Index0 it + 1) (m_BeginIndex0 it) (m_EndIndex0 it)
               (m_RealIndex it) (m_SegmentRemainder it - 1)
               (m_RunLengthLine it) (m_BI it))) /\
  (m_SegmentRemainder it - 1 <= 0 -> m_Index0 it + 1 <> m_EndIndex0 it ->
     forall r, run_at (m_RunLengthLine it) (m_RealIndex it + 1) = Some r ->
     operator_inc debug it =
       Some (mkIterator (m_Index0 it + 1) (m_BeginIndex0 it) (m_EndIndex0 it)
               (m_RealIndex it + 1) (fst r)
               (m_RunLengthLine it) (m_BI it))).
Proof.
  intros Hend. split; [|split].
  - apply inc_same_run, Hend.
  - intros Hle Heq. apply inc_end_of_line; assumption.
  - intros Hle Hne r Hr. apply inc_next_run; assumption.
Qed.

(** C2. Backward step: the column goes down by one and the remainder up by
    one. When the remainder does not exceed the length of the current run
    nothing else changes. Otherwise the run index goes down by one and the
    remainder becomes 1, whatever the length of the run it now names. *)
Theorem operator_dec_step (it : Iterator) (r : Run) :
  run_at (m_RunLengthLine it) (m_RealIndex it) = Some r ->
  (m_SegmentRemainder it + 1 <= fst r ->
     operator_dec it =
       Some (mkIterator (m_Index0 it - 1) (m_BeginIndex0 it) (m_EndIndex0 it)
               (m_RealIndex it) (m_SegmentRemainder it + 1)
               (m_RunLengthLine it) (m_BI it))) /\
  (fst r < m_SegmentRemainder it + 1 ->
     operator_dec it =
       Some (mkIterator (m_Index0 it - 1) (m_BeginIndex0 it) (m_EndIndex0 it)
               (m_RealIndex it - 1) 1
               (m_RunLengthLine it) (m_BI it))).
Proof.
  intros Hr. split; intros Hc.
  - apply (dec_same_run it r); assumption.
  - apply (dec_previous_run it r); assumption.
Qed.

(** C9. [GoToEndOfLine] puts the column on [m_EndIndex0], the run index on
    the last run of the line and the remainder on 0; [IsAtEndOfLine] then
    holds. *)
Theorem GoToEndOfLine_spec (it : Iterator) :
  GoToEndOfLine it =
    mkIterator (m_EndIndex0 it) (m_BeginIndex0 it) (m_EndIndex0 it)
      (size (m_RunLengthLine it) - 1) 0 (m_RunLengthLine it) (m_BI it) /\
  (forall l r, m_RunLengthLine it = l ++ [r] ->
     run_at (m_RunLengthLine it) (m_RealIndex (GoToEndOfLine it)) = Some r) /\
  IsAtEndOfLine (GoToEndOfLine it) = true.
Proof.
  split; [reflexivity|]. split.
  - intros l r Hl. cbn. rewrite Hl. apply run_at_nth.
    unfold size. rewrite length_app. simpl. split; [lia|].
    replace (Z.to_nat (Z.of_nat (length l + 1) - 1)) with (length l) by lia.
    rewrite nth_error_app2 by lia. rewrite Nat.sub_diag. reflexivity.
  - unfold IsAtEndOfLine. cbn. apply Z.eqb_refl.
Qed.

(** C8. [GoToBeginOfLine] puts the column on [m_BeginIndex0], the run index
    on 0 and the remainder on the length of the first run. When the region
    begins at the start of the line and is not empty, and the first run has a
    positive length, the iterator is then active and forward consistent, with
    an exact remainder. *)
Theorem GoToBeginOfLine_spec (it : Iterator) (r : Run) :
  run_at (m_RunLengthLine it) 0 = Some r ->
  exists it',
    GoToBeginOfLine it = Some it' /\
    it' = mkIterator (m_BeginIndex0 it) (m_BeginIndex0 it) (m_EndIndex0 it)
            0 (fst r) (m_RunLengthLine it) (m_BI it) /\
    (m_BeginIndex0 it = 0 -> 0 < m_EndIndex0 it -> 1 <= fst r ->
       0 <= m_Index0 it' < m_EndIndex0 it' /\
       forward_consistent it' /\ exact_remainder it').
Proof.
  intros Hr. eexists. split; [apply goto_begin_eq, Hr|].
  split; [reflexivity|]. intros Hb He Hlen.
  destruct (goto_begin_synchronized it r Hr Hlen Hb He) as [Hfc Hex].
  split; [apply Hfc|]. split; assumption.
Qed.

(** C10. On the last column of a region that ends inside the current run
    (remainder at least 2), the forward step reaches the end of the line with
    a positive remainder, one less than before, and the same run index. That
    state is not the one [GoToEndOfLine] produces, whose remainder is 0. When
    the remainder was exact, the end column of the region lies in the run the
    index names. *)
Theorem operator_inc_clipped_end (it : Iterator) :
  forward_consistent it ->
  m_Index0 it = m_EndIndex0 it - 1 ->
  2 <= m_SegmentRemainder it ->
  exists it',
    operator_inc debug it = Some it' /\
    IsAtEndOfLine it' = true /\
    m_SegmentRemainder it' = m_SegmentRemainder it - 1 /\
    0 < m_SegmentRemainder it' /\
    m_RealIndex it' = m_RealIndex it /\
    m_SegmentRemainder (GoToEndOfLine it') = 0 /\
    m_RealIndex (GoToEndOfLine it') = size (m_RunLengthLine it') - 1 /\
    it' <> GoToEndOfLine it' /\
    (exact_remainder it ->
       run_start (m_RunLengthLine it') (m_RealIndex it') <= m_EndIndex0 it'
         < run_end (m_RunLengthLine it') (m_RealIndex it')).
Proof.
  intros (Hidx & Hend & r & Hr & Hsr & Hpix) Hlast Hge.
  eexists. split; [apply inc_same_run; [exact Hend | lia]|].
  unfold IsAtEndOfLine, exact_remainder. fields.
  split; [apply Z.eqb_eq; lia|].
  split; [reflexivity|]. split; [lia|]. split; [reflexivity|].
  split; [reflexivity|]. split; [reflexivity|]. split.
  - intros Heq. apply (f_equal m_SegmentRemainder) in Heq.
    unfold GoToEndOfLine in Heq. revert Heq. fields. lia.
  - intros Hex. rewrite (run_end_eq _ _ _ Hr) in *. lia.
Qed.

(** C3. The forward-consistent state with an exact remainder is an invariant
    of the forward direction. On a line whose runs all have positive length
    and a region that ends inside the line, a forward step that does not reach
    the end of the line is defined and leaves the iterator forward consistent,
    with an exact remainder. [GoToBeginOfLine] establishes that state when the
    region begins at the start of the line and is not empty, and the first run
    has a positive length. *)
Theorem synchronized_invariant :
  (forall it : Iterator,
     well_formed (m_RunLengthLine it) ->
     m_EndIndex0 it <= width (m_RunLengthLine it) ->
     forward_consistent it -> exact_remainder it ->
     m_Index0 it + 1 <> m_EndIndex0 it ->
     exists it',
       operator_inc debug it = Some it' /\
       IsAtEndOfLine it' = false /\
       forward_consistent it' /\ exact_remainder it') /\
  (forall (it : Iterator) (r : Run),
     run_at (m_RunLengthLine it) 0 = Some r -> 1 <= fst r ->
     m_BeginIndex0 it = 0 -> 0 < m_EndIndex0 it ->
     exists it',
       GoToBeginOfLine it = Some it' /\
       forward_consistent it' /\ exact_remainder it').
Proof.
  split.
  - intros it Hwf Hw Hfc Hex Hne.
    destruct (inc_synchronized it Hwf Hw (conj Hfc Hex))
      as (it' & Hinc & _ & _ & _ & _ & Hnext).
    destruct (Hnext Hne) as [Hfc' Hex'].
    exists it'. split; [exact Hinc|]. split; [apply Hfc'|]. split; assumption.
  - intros it r Hr Hlen Hb He.
    eexists. split; [apply goto_begin_eq, Hr|].
    apply goto_begin_synchronized; assumption.
Qed.

(** C4. On a line with at least one run, all of positive length, and a region
    that covers the whole line, the forward scan from [GoToBeginOfLine] to the
    end of the line reads as many values as the run lengths add up to, and the
    value read at column [i] is that of the one run whose range of columns
    contains [i]. *)
Theorem scan_forward_decodes (it : Iterator) :
  m_RunLengthLine it <> [] ->
  well_formed (m_RunLengthLine it) ->
  covers_line it ->
  exists it0 vs,
    GoToBeginOfLine it = Some it0 /\
    (forall fuel, (Z.to_nat (width (m_RunLengthLine it)) <= fuel)%nat ->
       scan_forward debug fuel it0 = Some vs) /\
    Z.of_nat (length vs) = width (m_RunLengthLine it) /\
    (forall i, 0 <= i < width (m_RunLengthLine it) ->
       exists j r,
         run_at (m_RunLengthLine it) j = Some r /\
         run_start (m_RunLengthLine it) j <= i
           < run_end (m_RunLengthLine it) j /\
         nth_error vs (Z.to_nat i) = Some (snd r) /\
         (forall j' r',
            run_at (m_RunLengthLine it) j' = Some r' ->
            run_start (m_RunLengthLine it) j' <= i
              < run_end (m_RunLengthLine it) j' ->
            j' = j)).
Proof.
  intros Hne Hwf [Hb He].
  destruct (first_run _ Hne) as [r0 Hr0].
  pose proof (width_positive _ Hne Hwf) as Hpos.
  pose proof (well_formed_run _ _ _ Hwf Hr0) as Hlen0.
  pose proof (goto_begin_synchronized it r0 Hr0 Hlen0 Hb ltac:(lia)) as Hsync.
  eexists. exists (decode (m_RunLengthLine it)).
  split; [apply goto_begin_eq, Hr0|]. split; [|split].
  - intros fuel Hfuel.
    rewrite (scan_forward_synchronized (Z.to_nat (width (m_RunLengthLine it))));
      fields; try assumption; try lia; [| right; exact Hsync].
    rewrite Hb. cbn [Z.to_nat skipn].
    rewrite firstn_all2 by (rewrite decode_length by assumption; lia).
    reflexivity.
  - rewrite decode_length by assumption. lia.
  - intros i Hi.
    destruct (owning_run_exists _ Hwf i Hi) as (j & r & Hr & Hrange).
    exists j, r. split; [exact Hr|]. split; [exact Hrange|]. split.
    + pose proof (pixel_in_run _ _ _ _ Hwf Hr Hrange) as Hpix.
      unfold pixel_at in Hpix.
      destruct (Z.ltb_spec i 0); [lia | exact Hpix].
    + intros j' r' Hr' Hrange'.
      apply (owning_run_unique (m_RunLengthLine it) i j j' r r'); assumption.
Qed.

(** C5. From a forward-consistent iterator inside its region whose forward
    step reads the run array inside its bounds, a forward step followed by a
    backward step gives back the iterator it started from: column, run index
    and remainder, and every other field. That covers the step that crosses
    into the next run, after which the run index is one higher. When the
    forward step would read past the last run it has no defined result. *)
Theorem inc_then_dec_restores (it : Iterator) :
  forward_consistent it ->
  m_BeginIndex0 it <= m_Index0 it < m_EndIndex0 it ->
  (next_run_in_bounds it ->
   exists it1,
     operator_inc debug it = Some it1 /\
     operator_dec it1 = Some it /\
     (m_SegmentRemainder it = 1 -> m_Index0 it + 1 <> m_EndIndex0 it ->
        m_RealIndex it1 = m_RealIndex it + 1)) /\
  (~ next_run_in_bounds it -> operator_inc debug it = None).
Proof.
  intros (Hidx & Hend & r & Hr & Hsr & Hpix) Hin.
  unfold next_run_in_bounds.
  destruct it as [i b e ri sr l bi].
  cbn [m_Index0 m_BeginIndex0 m_EndIndex0 m_RealIndex m_SegmentRemainder
       m_RunLengthLine m_BI] in *.
  split.
  - intros Hnext.
    destruct (Z.ltb_spec 0 (sr - 1)) as [Hpos|Hle].
    + eexists. split; [apply inc_same_run; [exact Hend | exact Hpos]|].
      fields. split; [|lia].
      rewrite (dec_same_run _ r); fields; [| exact Hr | lia].
      f_equal. f_equal; lia.
    + assert (sr = 1) by lia. subst sr.
      destruct (Z.eq_dec (i + 1) e) as [Heq|Hneq].
      * eexists.
        split; [apply inc_end_of_line; fields; [exact Hend | lia | exact Heq]|].
        fields. split; [|intros _ Hc; contradiction].
        rewrite (dec_same_run _ r); fields; [| exact Hr | lia].
        f_equal. f_equal; lia.
      * destruct Hnext as [Hc|[Hc|[r' Hr']]]; [lia | contradiction |].
        eexists.
        split; [apply (inc_next_run _ r'); fields;
                [exact Hend | lia | exact Hneq | exact Hr']|].
        fields. split; [|reflexivity].
        rewrite (dec_previous_run _ r'); fields; [| exact Hr' | lia].
        f_equal. f_equal; lia.
  - intros Hno. unfold operator_inc. rewrite Hend, andb_false_r.
    unfold IsAtEndOfLine. fields.
    destruct (Z.ltb_spec 0 (sr - 1)) as [Hpos|Hle]; [exfalso; apply Hno; lia|].
    destruct (Z.eqb_spec (i + 1) e) as [Heq|Hneq];
      [exfalso; apply Hno; auto|].
    destruct (run_at l (ri + 1)) as [r'|] eqn:Hr'; [|reflexivity].
    exfalso. apply Hno. right; right. exists r'. reflexivity.
Qed.

(** C6. On a line with at least one run, all of positive length, and a region
    that covers the whole line, the backward scan from [GoToEndOfLine] down
    to [m_BeginIndex0] reads the values of the forward scan from
    [GoToBeginOfLine] in reverse order. *)
Theorem scan_backward_reverses (it : Iterator) :
  m_RunLengthLine it <> [] ->
  well_formed (m_RunLengthLine it) ->
  covers_line it ->
  exists it0 vs,
    GoToBeginOfLine it = Some it0 /\
    (forall fuel, (Z.to_nat (width (m_RunLengthLine it)) <= fuel)%nat ->
       scan_forward debug fuel it0 = Some vs) /\
    (forall fuel, (Z.to_nat (width (m_RunLengthLine it)) <= fuel)%nat ->
       scan_backward fuel (GoToEndOfLine it0) = Some (rev vs)).
Proof.
  intros Hne Hwf [Hb He].
  destruct (first_run _ Hne) as [r0 Hr0].
  pose proof (width_positive _ Hne Hwf) as Hpos.
  pose proof (well_formed_run _ _ _ Hwf Hr0) as Hlen0.
  pose proof (goto_begin_synchronized it r0 Hr0 Hlen0 Hb ltac:(lia)) as Hsync.
  eexists. exists (decode (m_RunLengthLine it)).
  split; [apply goto_begin_eq, Hr0|].
  assert (Hall : firstn (Z.to_nat (width (m_RunLengthLine it)))
                   (decode (m_RunLengthLine it)) = decode (m_RunLengthLine it))
    by (apply firstn_all2; rewrite decode_length by assumption; lia).
  split.
  - intros fuel Hfuel.
    rewrite (scan_forward_synchronized (Z.to_nat (width (m_RunLengthLine it))));
      fields; try assumption; try lia; [| right; exact Hsync].
    rewrite Hb. cbn [Z.to_nat skipn]. rewrite Hall. reflexivity.
  - intros fuel Hfuel.
    rewrite (scan_backward_consistent (Z.to_nat (width (m_RunLengthLine it))));
      unfold GoToEndOfLine; fields; try assumption; try lia.
    + rewrite Hall. reflexivity.
    + apply (goto_end_backward_consistent
               (mkIterator (m_BeginIndex0 it) (m_BeginIndex0 it) (m_EndIndex0 it)
                  0 (fst r0) (m_RunLengthLine it) (m_BI it))); assumption.
Qed.

(** * Further properties of the operations *)

(** ** What the operations leave alone *)

Lemma inc_frame (it it' : Iterator) :
  operator_inc debug it = Some it' ->
  m_Index0 it' = m_Index0 it + 1 /\
  m_BeginIndex0 it' = m_BeginIndex0 it /\
  m_EndIndex0 it' = m_EndIndex0 it /\
  m_RunLengthLine it' = m_RunLengthLine it /\
  m_BI it' = m_BI it.
Proof.
  unfold operator_inc.
  destruct (debug && IsAtEndOfLine it); [discriminate|].
  unfold IsAtEndOfLine. fields.
  destruct (0 <? m_SegmentRemainder it - 1).
  - intros H. injection H as <-. fields. repeat split.
  - destruct (m_Index0 it + 1 =? m_EndIndex0 it).
    + intros H. injection H as <-. fields. repeat split.
    + destruct (run_at (m_RunLengthLine it) (m_RealIndex it + 1)) as [r|];
        [|discriminate].
      cbn [bind]. intros H. injection H as <-. fields. repeat split.
Qed.

Lemma dec_frame (it it' : Iterator) :
  operator_dec it = Some it' ->
  m_Index0 it' = m_Index0 it - 1 /\
  m_BeginIndex0 it' = m_BeginIndex0 it /\
  m_EndIndex0 it' = m_EndIndex0 it /\
  m_RunLengthLine it' = m_RunLengthLine it /\
  m_BI it' = m_BI it.
Proof.
  unfold operator_dec. fields.
  destruct (run_at (m_RunLengthLine it) (m_RealIndex it)) as [r|];
    [|discriminate].
  cbn [bind]. destruct (m_SegmentRemainder it + 1 <=? fst r);
    intros H; injection H as <-; fields; repeat split.
Qed.

Lemma goto_begin_frame (it it' : Iterator) :
  GoToBeginOfLine it = Some it' ->
  m_Index0 it' = m_BeginIndex0 it /\
  m_BeginIndex0 it' = m_BeginIndex0 it /\
  m_EndIndex0 it' = m_EndIndex0 it /\
  m_RunLengthLine it' = m_RunLengthLine it /\
  m_BI it' = m_BI it.
Proof.
  unfold GoToBeginOfLine. fields.
  destruct (run_at (m_RunLengthLine it) 0) as [r|]; [|discriminate].
  cbn [bind]. intros H. injection H as <-. fields. repeat split.
Qed.

Lemma call_frame (c : LineCall) (it it' : Iterator) :
  call debug c it = Some it' ->
  m_BeginIndex0 it' = m_BeginIndex0 it /\
  m_EndIndex0 it' = m_EndIndex0 it /\
  m_RunLengthLine it' = m_RunLengthLine it /\
  m_BI it' = m_BI it.
Proof.
  destruct c; cbn [call]; intros H.
  - apply inc_frame in H. tauto.
  - apply dec_frame in H. tauto.
  - apply goto_begin_frame in H. tauto.
  - injection H as <-. unfold GoToEndOfLine. fields. repeat split.
Qed.

(** X1. No sequence of forward steps, backward steps and line-boundary jumps
    changes the bounds of the region, the line or the line enumerator; so
    after any such sequence [GoToEndOfLine] and [GoToBeginOfLine] give what
    they would have given before it. *)
Theorem calls_frame (cs : list LineCall) (it it' : Iterator) :
  calls debug cs it = Some it' ->
  m_BeginIndex0 it' = m_BeginIndex0 it /\
  m_EndIndex0 it' = m_EndIndex0 it /\
  m_RunLengthLine it' = m_RunLengthLine it /\
  m_BI it' = m_BI it /\
  GoToEndOfLine it' = GoToEndOfLine it /\
  GoToBeginOfLine it' = GoToBeginOfLine it.
Proof.
  revert it. induction cs as [|c cs IH]; intros it H.
  - injection H as <-. repeat split.
  - cbn [calls] in H. destruct (call debug c it) as [it1|] eqn:Hc;
      [|discriminate].
    cbn [bind] in H. destruct (IH it1 H) as (Hb & He & Hl & Hbi & Hge & Hgb).
    destruct (call_frame c it it1 Hc) as (Hb1 & He1 & Hl1 & Hbi1).
    repeat split; try congruence.
    + rewrite Hge. unfold GoToEndOfLine. fields. congruence.
    + rewrite Hgb. unfold GoToBeginOfLine. fields. rewrite Hb1, He1, Hl1, Hbi1.
      reflexivity.
Qed.

(** ** Steps at the two ends of a line *)

(** X2. From a forward-consistent iterator a backward step followed by a
    forward step gives back the iterator it started from, in a debug and in a
    release build; no further condition is needed, because the forward step
    reads the run the backward step left. *)
Theorem dec_then_inc_restores (it : Iterator) :
  forward_consistent it ->
  exists it1,
    operator_dec it = Some it1 /\
    operator_inc debug it1 = Some it.
Proof.
  intros (Hidx & Hend & r & Hr & Hsr & Hpix).
  destruct it as [i b e ri sr l bi].
  cbn [m_Index0 m_BeginIndex0 m_EndIndex0 m_RealIndex m_SegmentRemainder
       m_RunLengthLine m_BI] in *.
  destruct (Z.leb_spec (sr + 1) (fst r)) as [Hle|Hgt].
  - eexists. split; [apply (dec_same_run _ r); fields; assumption|].
    rewrite inc_same_run; fields; try lia.
    + f_equal. f_equal; lia.
    + unfold IsAtEndOfLine. fields. apply Z.eqb_neq. lia.
  - eexists. split; [apply (dec_previous_run _ r); fields; assumption|].
    rewrite (inc_next_run _ r); fields; try lia.
    + f_equal. f_equal; lia.
    + unfold IsAtEndOfLine. fields. apply Z.eqb_neq. lia.
    + replace (ri - 1 + 1) with ri by lia. exact Hr.
Qed.

(** X3. On a line whose last run has a positive length, a backward step from
    the state of [GoToEndOfLine] stands on the last run with remainder 1, and
    the forward step from there gives the state of [GoToEndOfLine] again. *)
Theorem goto_end_dec_inc (it : Iterator) (r : Run) :
  run_at (m_RunLengthLine it) (size (m_RunLengthLine it) - 1) = Some r ->
  1 <= fst r ->
  exists it1,
    operator_dec (GoToEndOfLine it) = Some it1 /\
    m_Index0 it1 = m_EndIndex0 it - 1 /\
    m_RealIndex it1 = size (m_RunLengthLine it) - 1 /\
    m_SegmentRemainder it1 = 1 /\
    operator_inc debug it1 = Some (GoToEndOfLine it).
Proof.
  intros Hr Hlen. eexists.
  split; [apply (dec_same_run _ r); unfold GoToEndOfLine; fields;
          [exact Hr | lia]|].
  unfold GoToEndOfLine. fields. repeat (split; [reflexivity|]).
  rewrite inc_end_of_line; fields; try lia.
  - f_equal. f_equal; lia.
  - unfold IsAtEndOfLine. fields. apply Z.eqb_neq. lia.
Qed.

(** X4. A forward step from the state of [GoToEndOfLine] has no defined
    result in either build: a debug build stops on the assertion, a release
    build reads the run after the last one. *)
Theorem inc_after_goto_end (it : Iterator) :
  operator_inc debug (GoToEndOfLine it) = None.
Proof.
  unfold operator_inc, GoToEndOfLine, IsAtEndOfLine. fields.
  rewrite Z.eqb_refl. destruct debug; [reflexivity|]. cbn [andb].
  destruct (Z.ltb_spec 0 (0 - 1)); [lia|].
  destruct (Z.eqb_spec (m_EndIndex0 it + 1) (m_EndIndex0 it)); [lia|].
  unfold run_at, size.
  destruct (Z.ltb_spec (Z.of_nat (length (m_RunLengthLine it)) - 1 + 1) 0);
    [reflexivity|].
  replace (Z.to_nat (Z.of_nat (length (m_RunLengthLine it)) - 1 + 1))
    with (length (m_RunLengthLine it)) by lia.
  rewrite (proj2 (nth_error_None _ _)) by lia. reflexivity.
Qed.

(** X5. The backward step has no guard at the start of the line: from the
    state of [GoToBeginOfLine] it moves to the column before [m_BeginIndex0]
    with run index [-1], and a second backward step has no defined result,
    because it reads a run before the first one. *)
Theorem dec_before_begin (it it0 : Iterator) :
  GoToBeginOfLine it = Some it0 ->
  exists it1,
    operator_dec it0 = Some it1 /\
    m_Index0 it1 = m_BeginIndex0 it - 1 /\
    m_RealIndex it1 = -1 /\
    m_SegmentRemainder it1 = 1 /\
    operator_dec it1 = None.
Proof.
  unfold GoToBeginOfLine. fields.
  destruct (run_at (m_RunLengthLine it) 0) as [r|] eqn:Hr; [|discriminate].
  cbn [bind]. intros H. injection H as <-.
  eexists. split; [apply (dec_previous_run _ r); fields; [exact Hr | lia]|].
  fields. repeat (split; [reflexivity|]).
  unfold operator_dec. fields. reflexivity.
Qed.

(** X6. [GoToBeginOfLine] has a defined result exactly when the line has a
    run. On a line without runs [GoToEndOfLine] leaves run index [-1], from
    which the backward step has no defined result. *)
Theorem jumps_on_empty_line (it : Iterator) :
  (GoToBeginOfLine it = None <-> m_RunLengthLine it = []) /\
  (m_RunLengthLine it = [] ->
     m_RealIndex (GoToEndOfLine it) = -1 /\
     operator_dec (GoToEndOfLine it) = None).
Proof.
  split.
  - unfold GoToBeginOfLine. fields.
    destruct (m_RunLengthLine it) as [|r l]; cbn; split; intros H;
      congruence.
  - intros Hl. split.
    + unfold GoToEndOfLine. fields. rewrite Hl. reflexivity.
    + unfold operator_dec, GoToEndOfLine. fields. rewrite Hl. reflexivity.
Qed.

(** ** Runs at the ends of a line *)

Lemma width_app (a b : PLine) : width (a ++ b) = width a + width b.
Proof.
  induction a as [|x a IH]; simpl; [reflexivity | rewrite IH; lia].
Qed.

Lemma run_end_in_line (l : PLine) (j : Z) (r : Run) :
  well_formed l -> run_at l j = Some r -> run_end l j <= width l.
Proof.
  intros Hwf Hr. pose proof (run_at_bounds _ _ _ Hr) as Hb.
  rewrite <- run_start_size. unfold run_end, run_start, size in *.
  apply run_start_mono; [exact Hwf | lia].
Qed.

(** Only the last run ends at the full width. *)
Lemma last_run_at_width (l : PLine) (j : Z) (r : Run) :
  well_formed l -> run_at l j = Some r -> run_end l j = width l ->
  j = size l - 1.
Proof.
  intros Hwf Hr He. pose proof (run_at_bounds _ _ _ Hr) as Hb.
  destruct (Z.eq_dec (j + 1) (size l)) as [E|E]; [lia|].
  destruct (run_at_in_bounds l (j + 1)) as [r' Hr']; [lia|].
  pose proof (run_end_eq _ _ _ Hr') as Hre'.
  pose proof (run_end_in_line _ _ _ Hwf Hr') as Hle.
  pose proof (well_formed_run _ _ _ Hwf Hr') as Hlen.
  unfold run_end in He. lia.
Qed.

(** Only the first run starts at column 0. *)
Lemma first_run_at_zero (l : PLine) (j : Z) (r : Run) :
  well_formed l -> run_at l j = Some r -> run_start l j = 0 -> j = 0.
Proof.
  intros Hwf Hr Hs. pose proof (run_at_bounds _ _ _ Hr) as Hb.
  destruct (Z.eq_dec j 0) as [E|E]; [exact E|].
  destruct (run_at_in_bounds l 0) as [r0 Hr0]; [lia|].
  pose proof (run_end_eq _ _ _ Hr0) as Hre0. rewrite run_start_0 in Hre0.
  pose proof (well_formed_run _ _ _ Hwf Hr0) as Hlen.
  pose proof (run_start_mono l Hwf (Z.to_nat (0 + 1)) (Z.to_nat j)) as Hm.
  unfold run_end, run_start in *. lia.
Qed.

(** The forward step that reaches the end of the line from a synchronized
    iterator leaves a backward-consistent one. *)
Lemma inc_synchronized_at_end (it : Iterator) :
  synchronized it ->
  m_Index0 it + 1 = m_EndIndex0 it ->
  exists it',
    operator_inc debug it = Some it' /\ backward_consistent it'.
Proof.
  intros [(Hidx & Hend & r & Hr & Hsr & Hpix) Hex] Heq.
  unfold exact_remainder in Hex.
  assert (Hbc : backward_consistent
            (mkIterator (m_Index0 it + 1) (m_BeginIndex0 it) (m_EndIndex0 it)
               (m_RealIndex it) (m_SegmentRemainder it - 1)
               (m_RunLengthLine it) (m_BI it))).
  { exists r. unfold exact_remainder. fields.
    split; [exact Hr|]. split; lia. }
  destruct (Z.ltb_spec 0 (m_SegmentRemainder it - 1)) as [Hpos|Hle].
  - eexists. split; [apply inc_same_run; assumption | exact Hbc].
  - eexists. split; [apply inc_end_of_line; assumption | exact Hbc].
Qed.

(** Stepping forward to the end of the line from a synchronized iterator, in
    a region inside the stored line, stops on a backward-consistent one. *)
Lemma run_forward_synchronized (n : nat) :
  forall it : Iterator,
    well_formed (m_RunLengthLine it) ->
    m_EndIndex0 it <= width (m_RunLengthLine it) ->
    synchronized it ->
    m_EndIndex0 it - m_Index0 it = Z.of_nat (S n) ->
    exists it',
      (forall fuel, (S n <= fuel)%nat ->
         run_forward debug fuel it = Some it') /\
      m_Index0 it' = m_EndIndex0 it /\
      m_BeginIndex0 it' = m_BeginIndex0 it /\
      m_EndIndex0 it' = m_EndIndex0 it /\
      m_RunLengthLine it' = m_RunLengthLine it /\
      m_BI it' = m_BI it /\
      backward_consistent it'.
Proof.
  induction n as [|n IH]; intros it Hwf Hw Hsync Hn;
    pose proof Hsync as [(_ & Hend & _) _].
  - destruct (inc_synchronized_at_end it Hsync) as (it' & Hinc & Hbc); [lia|].
    destruct (inc_frame _ _ Hinc) as (Hi & Hb & He & Hl & Hbi).
    exists it'.
    assert (E : IsAtEndOfLine it' = true)
      by (unfold IsAtEndOfLine; apply Z.eqb_eq; lia).
    split.
    + intros [|fuel] Hfuel; [lia|].
      cbn [run_forward]. rewrite Hend, Hinc. cbn [bind].
      destruct fuel; cbn [run_forward]; rewrite E; reflexivity.
    + repeat split; try assumption; lia.
  - destruct (inc_synchronized it Hwf Hw Hsync)
      as (it1 & Hinc & Hl & Hb & He & Hi & Hnext).
    destruct (inc_frame _ _ Hinc) as (_ & _ & _ & _ & Hbi).
    destruct (IH it1) as (it' & Hrun & Hi' & Hb' & He' & Hl' & Hbi' & Hbc);
      [rewrite Hl; assumption | rewrite Hl, He; assumption
       | apply Hnext; lia | lia |].
    exists it'. split.
    + intros [|fuel] Hfuel; [lia|].
      cbn [run_forward]. rewrite Hend, Hinc. cbn [bind].
      apply Hrun. lia.
    + repeat split; try assumption; congruence.
Qed.

(** The backward scan of a region that begins at any column of the line reads,
    last column first, the decoded pixels from [m_BeginIndex0] up to the
    column before [m_Index0]. *)
Lemma scan_backward_from (n : nat) :
  forall (it : Iterator) (fuel : nat),
    well_formed (m_RunLengthLine it) ->
    backward_consistent it ->
    0 <= m_BeginIndex0 it ->
    m_Index0 it - m_BeginIndex0 it = Z.of_nat n ->
    (n <= fuel)%nat ->
    scan_backward fuel it =
      Some (rev (firstn n (skipn (Z.to_nat (m_BeginIndex0 it))
                             (decode (m_RunLengthLine it))))).
Proof.
  induction n as [|n IH]; intros it fuel Hwf Hbc Hb Hn Hfuel.
  - assert (E : (m_Index0 it =? m_BeginIndex0 it) = true)
      by (apply Z.eqb_eq; lia).
    destruct fuel; simpl; rewrite E; reflexivity.
  - assert (E : (m_Index0 it =? m_BeginIndex0 it) = false)
      by (apply Z.eqb_neq; lia).
    destruct fuel as [|fuel]; [lia|].
    destruct (dec_backward_consistent it Hwf Hbc)
      as (it' & v & Hdec & Hl & Hb' & He & Hi & Hbc' & Hv & Hpix); [lia|].
    cbn [scan_backward]. rewrite E, Hdec. cbn [bind]. rewrite Hv. cbn [bind].
    rewrite (IH it' fuel); [| rewrite Hl; assumption | assumption | lia
                            | lia | lia].
    cbn [bind]. rewrite Hl, Hb'.
    unfold pixel_at in Hpix.
    destruct (Z.ltb_spec (m_Index0 it - 1) 0); [lia|].
    replace (Z.to_nat (m_Index0 it - 1))
      with (Z.to_nat (m_BeginIndex0 it) + n)%nat in Hpix by lia.
    rewrite <- nth_error_skipn in Hpix.
    rewrite (firstn_snoc_nth _ _ _ Hpix), rev_unit. reflexivity.
Qed.

(** Stepping backward to the start of the region from a backward-consistent
    iterator stops on a backward-consistent one. *)
Lemma run_backward_consistent (n : nat) :
  forall (it : Iterator) (fuel : nat),
    well_formed (m_RunLengthLine it) ->
    backward_consistent it ->
    0 <= m_BeginIndex0 it ->
    m_Index0 it - m_BeginIndex0 it = Z.of_nat n ->
    (n <= fuel)%nat ->
    exists it',
      run_backward fuel it = Some it' /\
      m_Index0 it' = m_BeginIndex0 it /\
      m_BeginIndex0 it' = m_BeginIndex0 it /\
      m_EndIndex0 it' = m_EndIndex0 it /\
      m_RunLengthLine it' = m_RunLengthLine it /\
      m_BI it' = m_BI it /\
      backward_consistent it'.
Proof.
  induction n as [|n IH]; intros it fuel Hwf Hbc Hb Hn Hfuel.
  - assert (E : (m_Index0 it =? m_BeginIndex0 it) = true)
      by (apply Z.eqb_eq; lia).
    exists it. split; [destruct fuel; simpl; rewrite E; reflexivity|].
    repeat split; try assumption; lia.
  - assert (E : (m_Index0 it =? m_BeginIndex0 it) = false)
      by (apply Z.eqb_neq; lia).
    destruct fuel as [|fuel]; [lia|].
    destruct (dec_backward_consistent it Hwf Hbc)
      as (it1 & v & Hdec & Hl & Hb' & He & Hi & Hbc' & _); [lia|].
    destruct (dec_frame _ _ Hdec) as (_ & _ & _ & _ & Hbi).
    cbn [run_backward]. rewrite E, Hdec. cbn [bind].
    destruct (IH it1 fuel) as (it' & Hrun & Hi' & Hb'' & He' & Hl' & Hbi' & Hbc'');
      [rewrite Hl; assumption | assumption | lia | lia | lia |].
    exists it'. split; [exact Hrun|].
    repeat split; try assumption; congruence.
Qed.

(** The pixels of the columns [b .. b+n-1] of a line. *)
Lemma window_pixels (l : PLine) (b n : Z) :
  well_formed l -> 0 <= b -> 0 <= n -> b + n <= width l ->
  Z.of_nat (length (firstn (Z.to_nat n) (skipn (Z.to_nat b) (decode l)))) = n /\
  forall k, 0 <= k < n ->
    nth_error (firstn (Z.to_nat n) (skipn (Z.to_nat b) (decode l)))
      (Z.to_nat k) = pixel_at l (b + k).
Proof.
  intros Hwf Hb Hn Hw. split.
  - rewrite length_firstn, length_skipn, decode_length by assumption. lia.
  - intros k Hk. rewrite nth_error_firstn.
    destruct (Nat.ltb_spec (Z.to_nat k) (Z.to_nat n)); [|lia].
    rewrite nth_error_skipn. unfold pixel_at.
    destruct (Z.ltb_spec (b + k) 0); [lia|].
    f_equal. lia.
Qed.

(** ** Traversals of clipped regions *)

(** X7. In a region that ends anywhere inside the stored line, the forward
    scan from a synchronized iterator stops at [m_EndIndex0] and reads exactly
    the pixels of the columns from [m_Index0] to [m_EndIndex0 - 1], in
    order. *)
Theorem scan_forward_clipped (it : Iterator) :
  well_formed (m_RunLengthLine it) ->
  m_EndIndex0 it <= width (m_RunLengthLine it) ->
  synchronized it ->
  exists vs,
    (forall fuel, (Z.to_nat (m_EndIndex0 it - m_Index0 it) <= fuel)%nat ->
       scan_forward debug fuel it = Some vs) /\
    Z.of_nat (length vs) = m_EndIndex0 it - m_Index0 it /\
    (forall k, 0 <= k < m_EndIndex0 it - m_Index0 it ->
       nth_error vs (Z.to_nat k) =
         pixel_at (m_RunLengthLine it) (m_Index0 it + k)).
Proof.
  intros Hwf Hw Hsync. pose proof Hsync as [(Hidx & _) _].
  eexists. split; [|apply window_pixels; try assumption; lia].
  intros fuel Hfuel.
  apply (scan_forward_synchronized (Z.to_nat (m_EndIndex0 it - m_Index0 it)));
    try assumption; [right; exact Hsync | lia].
Qed.

(** X8. When the region ends at the full width of a line whose runs all have
    positive length, stepping forward from a synchronized iterator until
    [IsAtEndOfLine] stops on exactly the state of [GoToEndOfLine]: the last
    run, with remainder 0. *)
Theorem run_forward_reaches_goto_end (it : Iterator) :
  well_formed (m_RunLengthLine it) ->
  m_EndIndex0 it = width (m_RunLengthLine it) ->
  synchronized it ->
  forall fuel, (Z.to_nat (m_EndIndex0 it - m_Index0 it) <= fuel)%nat ->
    run_forward debug fuel it = Some (GoToEndOfLine it).
Proof.
  intros Hwf He Hsync fuel Hfuel. pose proof Hsync as [(Hidx & _) _].
  destruct (run_forward_synchronized
              (Nat.pred (Z.to_nat (m_EndIndex0 it - m_Index0 it))) it)
    as (it' & Hrun & Hi & Hb & He' & Hl & Hbi & r & Hr & Hsr & Hex);
    try assumption; try lia.
  rewrite Hrun by lia. f_equal. unfold exact_remainder in Hex.
  rewrite Hl in Hr, Hex.
  pose proof (run_end_in_line _ _ _ Hwf Hr) as Hle.
  assert (Hri : m_RealIndex it' = size (m_RunLengthLine it) - 1)
    by (apply (last_run_at_width _ _ r); [assumption .. | lia]).
  destruct it' as [i b e ri sr l bi].
  cbn [m_Index0 m_BeginIndex0 m_EndIndex0 m_RealIndex m_SegmentRemainder
       m_RunLengthLine m_BI] in *.
  unfold GoToEndOfLine. fields. subst. f_equal; lia.
Qed.

(** X9. When the region covers a line that has a run and whose runs all have
    positive length, stepping backward from the state of [GoToEndOfLine] until
    the column is [m_BeginIndex0] stops on exactly the state of
    [GoToBeginOfLine]: the first run, with its full length as remainder. *)
Theorem run_backward_reaches_goto_begin (it : Iterator) :
  m_RunLengthLine it <> [] ->
  well_formed (m_RunLengthLine it) ->
  covers_line it ->
  forall fuel, (Z.to_nat (width (m_RunLengthLine it)) <= fuel)%nat ->
    run_backward fuel (GoToEndOfLine it) = GoToBeginOfLine it.
Proof.
  intros Hne Hwf [Hb He] fuel Hfuel.
  pose proof (width_positive _ Hne Hwf) as Hpos.
  destruct (first_run _ Hne) as [r0 Hr0].
  destruct (run_backward_consistent
              (Z.to_nat (width (m_RunLengthLine it))) (GoToEndOfLine it) fuel)
    as (it' & Hrun & Hi & Hb' & He' & Hl & Hbi & r & Hr & Hsr & Hex).
  - exact Hwf.
  - apply goto_end_backward_consistent; assumption.
  - unfold GoToEndOfLine. fields. lia.
  - unfold GoToEndOfLine. fields. lia.
  - exact Hfuel.
  - unfold GoToEndOfLine in Hi, Hb', He', Hl, Hbi.
    unfold set_RealIndex, set_SegmentRemainder, set_Index0 in Hi, Hb', He', Hl, Hbi.
    cbn [m_Index0 m_BeginIndex0 m_EndIndex0 m_RealIndex m_SegmentRemainder
         m_RunLengthLine m_BI] in Hi, Hb', He', Hl, Hbi.
    rewrite Hrun, (goto_begin_eq _ _ Hr0). f_equal.
    unfold exact_remainder in Hex. rewrite Hl in Hr, Hex.
    pose proof (run_end_eq _ _ _ Hr) as Hre.
    pose proof (run_start_nonneg (m_RunLengthLine it) (m_RealIndex it') Hwf)
      as H0.
    assert (Hri : m_RealIndex it' = 0)
      by (apply (first_run_at_zero (m_RunLengthLine it) _ r);
          [assumption .. | lia]).
    rewrite Hri in Hr, Hre. rewrite run_start_0 in Hre.
    assert (r = r0) by congruence. subst r0.
    destruct it' as [i b e ri sr l bi].
    cbn [m_Index0 m_BeginIndex0 m_EndIndex0 m_RealIndex m_SegmentRemainder
         m_RunLengthLine m_BI] in *.
    subst. f_equal; lia.
Qed.

(** X10. When the region ends at the full width of the line, wherever it
    begins, the backward scan from [GoToEndOfLine] stops at [m_BeginIndex0]
    and reads exactly the pixels of the columns of the region, last column
    first. *)
Theorem scan_backward_clipped_begin (it : Iterator) :
  m_RunLengthLine it <> [] ->
  well_formed (m_RunLengthLine it) ->
  0 <= m_BeginIndex0 it <= m_EndIndex0 it ->
  m_EndIndex0 it = width (m_RunLengthLine it) ->
  exists vs,
    (forall fuel, (Z.to_nat (m_EndIndex0 it - m_BeginIndex0 it) <= fuel)%nat ->
       scan_backward fuel (GoToEndOfLine it) = Some (rev vs)) /\
    Z.of_nat (length vs) = m_EndIndex0 it - m_BeginIndex0 it /\
    (forall k, 0 <= k < m_EndIndex0 it - m_BeginIndex0 it ->
       nth_error vs (Z.to_nat k) =
         pixel_at (m_RunLengthLine it) (m_BeginIndex0 it + k)).
Proof.
  intros Hne Hwf Hb He.
  eexists. split; [|apply window_pixels; try assumption; lia].
  intros fuel Hfuel.
  apply (scan_backward_from (Z.to_nat (m_EndIndex0 it - m_BeginIndex0 it))
           (GoToEndOfLine it) fuel);
    unfold GoToEndOfLine; fields; try assumption; try lia.
  apply goto_end_backward_consistent; assumption.
Qed.

(** X11. In a region that ends anywhere inside the stored line, the end of
    the line reached by stepping forward from a synchronized iterator on
    [m_BeginIndex0] is a state from which the backward scan reads the values
    of the forward scan in reverse order. *)
Theorem stepped_end_scans_back (it : Iterator) :
  well_formed (m_RunLengthLine it) ->
  m_EndIndex0 it <= width (m_RunLengthLine it) ->
  synchronized it ->
  m_Index0 it = m_BeginIndex0 it ->
  exists it_end vs,
    (forall fuel, (Z.to_nat (m_EndIndex0 it - m_BeginIndex0 it) <= fuel)%nat ->
       run_forward debug fuel it = Some it_end /\
       scan_forward debug fuel it = Some vs /\
       scan_backward fuel it_end = Some (rev vs)) /\
    IsAtEndOfLine it_end = true.
Proof.
  intros Hwf Hw Hsync Hbeg. pose proof Hsync as [(Hidx & _) _].
  set (n := Z.to_nat (m_EndIndex0 it - m_BeginIndex0 it)).
  destruct (run_forward_synchronized (Nat.pred n) it)
    as (it' & Hrun & Hi & Hb & He & Hl & Hbi & Hbc);
    try assumption; try (unfold n; lia).
  exists it'. eexists. split.
  - intros fuel Hfuel. fold n in Hfuel.
    split; [apply Hrun; unfold n in *; lia|]. split.
    + rewrite (scan_forward_synchronized n); try assumption;
        [| right; exact Hsync | unfold n; lia].
      rewrite Hbeg. reflexivity.
    + rewrite (scan_backward_from n); try assumption;
        [| rewrite Hl; assumption | lia | unfold n; lia].
      rewrite Hl, Hb. reflexivity.
  - unfold IsAtEndOfLine. apply Z.eqb_eq. lia.
Qed.

(** ** Past the end of the line and of the region *)

Lemma inc_repeat_frame (n : nat) :
  forall it it' : Iterator,
    inc_repeat debug n it = Some it' ->
    m_Index0 it' = m_Index0 it + Z.of_nat n /\
    m_EndIndex0 it' = m_EndIndex0 it.
Proof.
  induction n as [|n IH]; intros it it' H.
  - injection H as <-. split; [cbn; lia | reflexivity].
  - cbn [inc_repeat] in H.
    destruct (operator_inc debug it) as [it1|] eqn:Hinc; [|discriminate].
    cbn [bind] in H. destruct (IH it1 it' H) as [Hi He].
    destruct (inc_frame _ _ Hinc) as (Hi1 & _ & He1 & _).
    split; [lia | congruence].
Qed.

(** X12. Once the column is at or past [m_EndIndex0], forward steps only move
    it further away: after one or more of them [IsAtEndOfLine] is false, so a
    loop that waits for it does not stop. *)
Theorem inc_past_end (n : nat) (it it' : Iterator) :
  m_EndIndex0 it <= m_Index0 it ->
  inc_repeat debug (S n) it = Some it' ->
  m_Index0 it' = m_Index0 it + Z.of_nat (S n) /\
  IsAtEndOfLine it' = false.
Proof.
  intros Hpast H. destruct (inc_repeat_frame _ _ _ H) as [Hi He].
  split; [exact Hi|]. unfold IsAtEndOfLine. apply Z.eqb_neq. lia.
Qed.

(** X13. When [NextLine] finds the enumerator exhausted, the iterator it
    leaves is at the end of its line only if the region is empty, and it keeps
    the run index and the remainder it had. Left after a line was read to its
    end (last run, remainder at most 1), a forward step from it has no defined
    result in a region of two columns or more: it reads the run after the
    last one. *)
Theorem NextLine_exhausted_state `{RegionIteratorBase Pixel BufferIterator}
    (it : Iterator) :
  BI_IsAtEnd (BI_inc (m_BI it)) = true ->
  exists it',
    NextLine it = Some it' /\
    IsAtEndOfLine it' = (m_BeginIndex0 it =? m_EndIndex0 it) /\
    m_RealIndex it' = m_RealIndex it /\
    m_SegmentRemainder it' = m_SegmentRemainder it /\
    (m_RealIndex it = size (m_RunLengthLine it) - 1 ->
     m_SegmentRemainder it <= 1 ->
     m_BeginIndex0 it <> m_EndIndex0 it ->
     m_BeginIndex0 it + 1 <> m_EndIndex0 it ->
     operator_inc debug it' = None).
Proof.
  intros E. eexists. split; [unfold NextLine; fields; rewrite E; reflexivity|].
  unfold IsAtEndOfLine. fields. repeat (split; [reflexivity|]).
  intros Hri Hsr Hne Hne1. unfold operator_inc, IsAtEndOfLine. fields.
  rewrite (proj2 (Z.eqb_neq _ _) Hne), andb_false_r.
  destruct (Z.ltb_spec 0 (m_SegmentRemainder it - 1)); [lia|].
  rewrite (proj2 (Z.eqb_neq _ _) Hne1), Hri.
  unfold run_at, size.
  destruct (Z.ltb_spec (Z.of_nat (length (m_RunLengthLine it)) - 1 + 1) 0);
    [reflexivity|].
  replace (Z.to_nat (Z.of_nat (length (m_RunLengthLine it)) - 1 + 1))
    with (length (m_RunLengthLine it)) by lia.
  rewrite (proj2 (nth_error_None _ _)) by lia. reflexivity.
Qed.

(** ** Line-boundary jumps on a clipped region *)

Lemma inc_shift (d : Z) (it : Iterator) :
  operator_inc debug (shift d it) = option_map (shift d) (operator_inc debug it).
Proof.
  unfold operator_inc, IsAtEndOfLine, shift. fields.
  replace (m_Index0 it + d =? m_EndIndex0 it + d)
    with (m_Index0 it =? m_EndIndex0 it)
    by (destruct (Z.eqb_spec (m_Index0 it) (m_EndIndex0 it)),
          (Z.eqb_spec (m_Index0 it + d) (m_EndIndex0 it + d)); lia || reflexivity).
  destruct (debug && (m_Index0 it =? m_EndIndex0 it)); [reflexivity|].
  replace (m_Index0 it + d + 1 =? m_EndIndex0 it + d)
    with (m_Index0 it + 1 =? m_EndIndex0 it)
    by (destruct (Z.eqb_spec (m_Index0 it + 1) (m_EndIndex0 it)),
          (Z.eqb_spec (m_Index0 it + d + 1) (m_EndIndex0 it + d));
        lia || reflexivity).
  destruct (0 <? m_SegmentRemainder it - 1).
  - cbn [option_map]. fields. f_equal. f_equal. lia.
  - destruct (m_Index0 it + 1 =? m_EndIndex0 it).
    + cbn [option_map]. fields. f_equal. f_equal. lia.
    + destruct (run_at (m_RunLengthLine it) (m_RealIndex it + 1)) as [r|];
        [|reflexivity].
      cbn [bind option_map]. fields. f_equal. f_equal. lia.
Qed.

Lemma dec_shift (d : Z) (it : Iterator) :
  operator_dec (shift d it) = option_map (shift d) (operator_dec it).
Proof.
  unfold operator_dec, shift. fields.
  destruct (run_at (m_RunLengthLine it) (m_RealIndex it)) as [r|];
    [|reflexivity].
  cbn [bind]. destruct (m_SegmentRemainder it + 1 <=? fst r);
    cbn [option_map]; fields; f_equal; f_equal; lia.
Qed.

Lemma scan_forward_shift (d : Z) (fuel : nat) :
  forall it : Iterator,
    scan_forward debug fuel (shift d it) = scan_forward debug fuel it.
Proof.
  assert (Hend : forall it : Iterator,
            IsAtEndOfLine (shift d it) = IsAtEndOfLine it).
  { intros it. unfold IsAtEndOfLine, shift. fields.
    destruct (Z.eqb_spec (m_Index0 it) (m_EndIndex0 it)),
      (Z.eqb_spec (m_Index0 it + d) (m_EndIndex0 it + d)); lia || reflexivity. }
  induction fuel as [|fuel IH]; intros it; cbn [scan_forward]; rewrite Hend.
  - reflexivity.
  - destruct (IsAtEndOfLine it); [reflexivity|].
    change (Value (shift d it)) with (Value it).
    destruct (Value it) as [v|]; [|reflexivity]. cbn [bind].
    rewrite inc_shift.
    destruct (operator_inc debug it) as [it'|]; [|reflexivity].
    cbn [option_map bind]. rewrite IH. reflexivity.
Qed.

Lemma scan_backward_shift (d : Z) (fuel : nat) :
  forall it : Iterator,
    scan_backward fuel (shift d it) = scan_backward fuel it.
Proof.
  assert (Hbeg : forall it : Iterator,
            (m_Index0 (shift d it) =? m_BeginIndex0 (shift d it)) =
            (m_Index0 it =? m_BeginIndex0 it)).
  { intros it. unfold shift. fields.
    destruct (Z.eqb_spec (m_Index0 it) (m_BeginIndex0 it)),
      (Z.eqb_spec (m_Index0 it + d) (m_BeginIndex0 it + d)); lia || reflexivity. }
  induction fuel as [|fuel IH]; intros it; cbn [scan_backward]; rewrite Hbeg.
  - reflexivity.
  - destruct (m_Index0 it =? m_BeginIndex0 it); [reflexivity|].
    rewrite dec_shift.
    destruct (operator_dec it) as [it'|]; [|reflexivity].
    cbn [option_map bind].
    change (Value (shift d it')) with (Value it').
    destruct (Value it') as [v|]; [|reflexivity]. cbn [bind].
    rewrite IH. reflexivity.
Qed.

(** X14. [GoToBeginOfLine] takes the first run whatever [m_BeginIndex0] is.
    On a region of [w] columns, [w] at most the width of the line, the forward
    scan that follows it reads the first [w] pixels of the line, those of
    columns [0 .. w-1], and not the pixels of the region when the region
    begins further right. *)
Theorem goto_begin_reads_line_start (it : Iterator) :
  m_RunLengthLine it <> [] ->
  well_formed (m_RunLengthLine it) ->
  m_BeginIndex0 it < m_EndIndex0 it ->
  m_EndIndex0 it - m_BeginIndex0 it <= width (m_RunLengthLine it) ->
  exists it0 vs,
    GoToBeginOfLine it = Some it0 /\
    (forall fuel, (Z.to_nat (m_EndIndex0 it - m_BeginIndex0 it) <= fuel)%nat ->
       scan_forward debug fuel it0 = Some vs) /\
    Z.of_nat (length vs) = m_EndIndex0 it - m_BeginIndex0 it /\
    (forall k, 0 <= k < m_EndIndex0 it - m_BeginIndex0 it ->
       nth_error vs (Z.to_nat k) = pixel_at (m_RunLengthLine it) k).
Proof.
  intros Hne Hwf Hbe Hw.
  destruct (first_run _ Hne) as [r0 Hr0].
  pose proof (well_formed_run _ _ _ Hwf Hr0) as Hlen0.
  set (w := m_EndIndex0 it - m_BeginIndex0 it) in *.
  set (base := mkIterator 0 0 w 0 (fst r0) (m_RunLengthLine it) (m_BI it)
               : Iterator).
  assert (Hsync : synchronized base).
  { apply (goto_begin_synchronized
             (mkIterator 0 0 w 0 0 (m_RunLengthLine it) (m_BI it)) r0);
      fields; try assumption; try reflexivity; lia. }
  assert (Hshift : mkIterator (m_BeginIndex0 it) (m_BeginIndex0 it)
                     (m_EndIndex0 it) 0 (fst r0) (m_RunLengthLine it) (m_BI it)
                   = shift (m_BeginIndex0 it) base).
  { unfold shift, base. fields. f_equal; unfold w; lia. }
  eexists. eexists. split; [apply goto_begin_eq, Hr0|].
  split; [|apply (window_pixels (m_RunLengthLine it) 0 w); try assumption; lia].
  intros fuel Hfuel. rewrite Hshift, scan_forward_shift.
  rewrite (scan_forward_synchronized (Z.to_nat w)); unfold base; fields;
    try assumption; try lia; [reflexivity | right; exact Hsync].
Qed.

(** X15. [GoToEndOfLine] takes the last run whatever [m_EndIndex0] is. On a
    region of [w] columns, [w] at most the width of the line, the backward
    scan that follows it reads, last first, the last [w] pixels of the line,
    and not the pixels of the region when the region ends further left. *)
Theorem goto_end_reads_line_end (it : Iterator) :
  m_RunLengthLine it <> [] ->
  well_formed (m_RunLengthLine it) ->
  m_BeginIndex0 it <= m_EndIndex0 it ->
  m_EndIndex0 it - m_BeginIndex0 it <= width (m_RunLengthLine it) ->
  exists vs,
    (forall fuel, (Z.to_nat (m_EndIndex0 it - m_BeginIndex0 it) <= fuel)%nat ->
       scan_backward fuel (GoToEndOfLine it) = Some (rev vs)) /\
    Z.of_nat (length vs) = m_EndIndex0 it - m_BeginIndex0 it /\
    (forall k, 0 <= k < m_EndIndex0 it - m_BeginIndex0 it ->
       nth_error vs (Z.to_nat k) =
         pixel_at (m_RunLengthLine it)
           (width (m_RunLengthLine it)
              - (m_EndIndex0 it - m_BeginIndex0 it) + k)).
Proof.
  intros Hne Hwf Hbe Hw.
  set (w := m_EndIndex0 it - m_BeginIndex0 it) in *.
  set (W := width (m_RunLengthLine it)) in *.
  set (base := mkIterator W (W - w) W 0 0 (m_RunLengthLine it) (m_BI it)
               : Iterator).
  assert (Hshift : GoToEndOfLine it = shift (m_EndIndex0 it - W) (GoToEndOfLine base)).
  { unfold shift, GoToEndOfLine, base. fields. f_equal; unfold w; lia. }
  eexists. split;
    [|apply (window_pixels (m_RunLengthLine it) (W - w) w); try assumption; lia].
  intros fuel Hfuel. rewrite Hshift, scan_backward_shift.
  rewrite (scan_backward_from (Z.to_nat w));
    unfold GoToEndOfLine, base; fields; try assumption; try lia;
    [reflexivity|].
  apply (goto_end_backward_consistent
           (mkIterator W (W - w) W 0 0 (m_RunLengthLine it) (m_BI it)));
    fields; assumption || reflexivity.
Qed.

End Proofs.

(** * Concrete runs *)

(** * [NextLine] on the modelled base class *)

Section NextLineOnModel.

Context {Pixel : Type}.

Local Abbreviation Cursor :=
  (ImageScanlineConstIterator Pixel (LineEnumerator Pixel)).

Lemma advance_exhausted (e : LineEnumerator Pixel) :
  isExhausted e = true -> advance e = e.
Proof.
  unfold isExhausted, advance. intros Hb. apply Nat.leb_le in Hb.
  destruct (Nat.ltb_spec (le_pos e) (length (le_lines e))); [lia | reflexivity].
Qed.

Lemma advance_region (e : LineEnumerator Pixel) :
  regionBoundsForLine (advance e) = regionBoundsForLine e.
Proof.
  unfold regionBoundsForLine, advance.
  destruct (le_pos e <? length (le_lines e))%nat; reflexivity.
Qed.

Lemma not_exhausted_current (e : LineEnumerator Pixel) :
  isExhausted e = false -> exists l, current e = Some l.
Proof.
  unfold isExhausted, current. intros Hb. apply Nat.leb_gt in Hb.
  destruct (nth_error (le_lines e) (le_pos e)) as [l|] eqn:Hn;
    [exists l; reflexivity|].
  apply nth_error_None in Hn. lia.
Qed.

Lemma run_start_cons (r0 : Run) (l : @Line Pixel) (j : Z) :
  0 <= j -> run_start (r0 :: l) (j + 1) = fst r0 + run_start l j.
Proof.
  intros Hj. unfold run_start.
  replace (Z.to_nat (j + 1)) with (S (Z.to_nat j)) by lia. reflexivity.
Qed.

Lemma run_at_cons (r0 : Run) (l : @Line Pixel) (j : Z) :
  0 <= j -> run_at (r0 :: l) (j + 1) = run_at l j.
Proof.
  intros Hj. unfold run_at.
  destruct (Z.ltb_spec (j + 1) 0), (Z.ltb_spec j 0); try lia.
  replace (Z.to_nat (j + 1)) with (S (Z.to_nat j)) by lia. reflexivity.
Qed.

(** The modelled lookup finds the run that owns the column and the exact
    remainder. *)
Lemma lookup_owning_run (l : @Line Pixel) :
  well_formed l ->
  forall c j0, 0 <= c < width l ->
    exists k r,
      lookup l c j0 = Some (j0 + k, run_end l k - c) /\
      run_at l k = Some r /\
      run_start l k <= c < run_end l k.
Proof.
  induction 1 as [|r0 l Hr0 Hwf IH]; intros c j0 Hc; simpl in Hc; [lia|].
  cbn [lookup]. destruct (Z.ltb_spec c (fst r0)) as [Hlt|Hge].
  - exists 0, r0.
    assert (Hr : run_at (r0 :: l) 0 = Some r0) by reflexivity.
    pose proof (run_end_eq _ _ _ Hr) as Hre. rewrite run_start_0 in Hre.
    rewrite Hre, run_start_0. split; [|split; [exact Hr | lia]].
    f_equal. f_equal; lia.
  - destruct (IH (c - fst r0) (j0 + 1)) as (k & r & Hlk & Hr & Hrange); [lia|].
    pose proof (run_at_bounds _ _ _ Hr) as Hb.
    exists (k + 1), r. unfold run_end in *.
    rewrite !run_start_cons by lia. rewrite run_at_cons by lia.
    split; [|split; [exact Hr | lia]].
    rewrite Hlk. f_equal. f_equal; lia.
Qed.

(** C7. [NextLine] advances the line enumerator. When the enumerator is not
    exhausted, the result is that of the general seek to [m_BeginIndex0] on
    the line the enumerator now points at; for a column inside that line the
    iterator then stands on that column of the new line with the clipped
    bounds recomputed for it, which makes it the [m_BeginIndex0] of the new
    line when the bounds of the iterator were those of its region, and the
    run index and the remainder are those of the column. When the enumerator
    is exhausted, the column is set to [m_BeginIndex0], nothing else changes
    and the call has a result, and so has every further call, which leaves
    the same state. *)
Theorem NextLine_spec (it : Cursor) :
  (isExhausted (advance (m_BI it)) = false ->
     exists l,
       current (advance (m_BI it)) = Some l /\
       NextLine it =
         seek (m_BeginIndex0 it)
           (mkIterator (m_Index0 it) (m_BeginIndex0 it) (m_EndIndex0 it)
              (m_RealIndex it) (m_SegmentRemainder it) (m_RunLengthLine it)
              (advance (m_BI it))) /\
       (well_formed l -> 0 <= m_BeginIndex0 it < width l ->
        exists it',
          NextLine it = Some it' /\
          m_BI it' = advance (m_BI it) /\
          m_RunLengthLine it' = l /\
          m_Index0 it' = m_BeginIndex0 it /\
          (m_BeginIndex0 it', m_EndIndex0 it')
            = regionBoundsForLine (advance (m_BI it)) /\
          (m_BeginIndex0 it = le_begin0 (m_BI it) ->
             m_Index0 it' = m_BeginIndex0 it') /\
          exact_remainder it' /\
          exists r,
            run_at l (m_RealIndex it') = Some r /\
            1 <= m_SegmentRemainder it' <= fst r /\
            pixel_at l (m_Index0 it') = Some (snd r))) /\
  (isExhausted (advance (m_BI it)) = true ->
     NextLine it =
       Some (mkIterator (m_BeginIndex0 it) (m_BeginIndex0 it) (m_EndIndex0 it)
               (m_RealIndex it) (m_SegmentRemainder it) (m_RunLengthLine it)
               (advance (m_BI it))) /\
     forall n,
       NextLine_repeat (S n) it =
         Some (mkIterator (m_BeginIndex0 it) (m_BeginIndex0 it)
                 (m_EndIndex0 it) (m_RealIndex it) (m_SegmentRemainder it)
                 (m_RunLengthLine it) (advance (m_BI it)))).
Proof.
  split.
  - intros E. destruct (not_exhausted_current _ E) as [l Hl].
    assert (Hnext : NextLine it =
              seek (m_BeginIndex0 it)
                (mkIterator (m_Index0 it) (m_BeginIndex0 it) (m_EndIndex0 it)
                   (m_RealIndex it) (m_SegmentRemainder it)
                   (m_RunLengthLine it) (advance (m_BI it)))).
    { unfold NextLine, BI_IsAtEnd, BI_inc, SetIndexInternal, enumerated_base.
      unfold set_BI. cbn [m_Index0 m_BeginIndex0 m_EndIndex0 m_RealIndex
                          m_SegmentRemainder m_RunLengthLine m_BI].
      rewrite E. reflexivity. }
    exists l. split; [exact Hl|]. split; [exact Hnext|].
    intros Hwf Hc.
    destruct (lookup_owning_run l Hwf (m_BeginIndex0 it) 0 Hc)
      as (k & r & Hlk & Hr & Hrange).
    pose proof (run_end_eq _ _ _ Hr) as Hre.
    pose proof (well_formed_run _ _ _ Hwf Hr) as Hlen.
    eexists. split.
    { rewrite Hnext. unfold seek.
      cbn [m_Index0 m_BeginIndex0 m_EndIndex0 m_RealIndex
           m_SegmentRemainder m_RunLengthLine m_BI].
      rewrite Hl. cbn [bind].
      destruct (Z.ltb_spec (m_BeginIndex0 it) 0); [lia|].
      rewrite Hlk. cbn [bind fst snd]. reflexivity. }
    unfold exact_remainder.
    cbn [m_Index0 m_BeginIndex0 m_EndIndex0 m_RealIndex
         m_SegmentRemainder m_RunLengthLine m_BI].
    change (0 + k) with k.
    split; [reflexivity|]. split; [reflexivity|]. split; [reflexivity|].
    split; [reflexivity|]. split.
    { intros Hreg. rewrite advance_region. cbn [regionBoundsForLine fst].
      exact Hreg. }
    split; [lia|].
    exists r. split; [exact Hr|]. split; [lia|].
    apply (pixel_in_run l k); assumption.
  - intros E.
    assert (Hstep : forall c : Cursor,
              isExhausted (advance (m_BI c)) = true ->
              NextLine c =
                Some (mkIterator (m_BeginIndex0 c) (m_BeginIndex0 c)
                        (m_EndIndex0 c) (m_RealIndex c) (m_SegmentRemainder c)
                        (m_RunLengthLine c) (advance (m_BI c)))).
    { intros c Ec.
      unfold NextLine, BI_IsAtEnd, BI_inc, enumerated_base, set_BI, set_Index0.
      cbn [m_Index0 m_BeginIndex0 m_EndIndex0 m_RealIndex
           m_SegmentRemainder m_RunLengthLine m_BI].
      rewrite Ec. reflexivity. }
    split; [apply Hstep, E|].
    intros n. cbn [NextLine_repeat]. rewrite (Hstep it E). cbn [bind].
    induction n as [|n IH]; [reflexivity|].
    cbn [NextLine_repeat]. rewrite Hstep;
      cbn [m_Index0 m_BeginIndex0 m_EndIndex0 m_RealIndex
           m_SegmentRemainder m_RunLengthLine m_BI];
      rewrite (advance_exhausted _ E); [|exact E].
    cbn [bind]. exact IH.
Qed.

End NextLineOnModel.

(** The step from column 2 of [line_ABC] crosses into the second run: run
    index 1, remainder 2 (section 8, property 5). *)
Lemma operator_inc_step_witness :
  IsAtEndOfLine it_ABC_2 = false /\
  operator_inc true it_ABC_2 = Some it_ABC_3.
Proof.
  split; [reflexivity|].
  exact (proj2 (proj2 (operator_inc_step true it_ABC_2 eq_refl))
           ltac:(cbn; lia) ltac:(cbn; lia) (2, 2) eq_refl).
Defined.

(** The step back from column 3 of [line_ABC] crosses into the first run with
    remainder 1. *)
Lemma operator_dec_step_witness :
  run_at (m_RunLengthLine it_ABC_3) (m_RealIndex it_ABC_3) = Some (2, 2) /\
  operator_dec it_ABC_3 = Some it_ABC_2.
Proof.
  split; [reflexivity|].
  exact (proj2 (operator_dec_step it_ABC_3 (2, 2) eq_refl) ltac:(cbn; lia)).
Defined.

Lemma GoToEndOfLine_spec_witness :
  GoToEndOfLine it_ABC = mkIterator 9 0 9 2 0 line_ABC tt /\
  run_at line_ABC 2 = Some (4, 3) /\
  IsAtEndOfLine (GoToEndOfLine it_ABC) = true.
Proof.
  destruct (GoToEndOfLine_spec it_ABC) as (Heq & Hlast & Hend).
  split; [exact Heq|]. split; [|exact Hend].
  exact (Hlast [(3, 1); (2, 2)] (4, 3) eq_refl).
Defined.

Lemma GoToBeginOfLine_spec_witness :
  GoToBeginOfLine it_ABC = Some (mkIterator 0 0 9 0 3 line_ABC tt) /\
  forward_consistent (mkIterator 0 0 9 0 3 line_ABC tt : ImageScanlineConstIterator Z unit) /\
  exact_remainder (mkIterator 0 0 9 0 3 line_ABC tt : ImageScanlineConstIterator Z unit).
Proof.
  destruct (GoToBeginOfLine_spec it_ABC (3, 1) eq_refl)
    as (it' & Hgo & Heq & Hinv).
  destruct (Hinv eq_refl ltac:(cbn; lia) ltac:(cbn; lia)) as (_ & Hfc & Hex).
  rewrite Heq in Hgo, Hfc, Hex.
  split; [exact Hgo|]. split; assumption.
Defined.

Lemma line_ABC_well_formed : well_formed line_ABC.
Proof. repeat constructor; cbn; lia. Qed.

Lemma it_ABC_3_forward_consistent : forward_consistent it_ABC_3.
Proof.
  split; [cbn; lia|]. split; [reflexivity|].
  exists (2, 2). split; [reflexivity|]. split; [cbn; lia | reflexivity].
Qed.

Lemma it_ABC_2_forward_consistent : forward_consistent it_ABC_2.
Proof.
  split; [cbn; lia|]. split; [reflexivity|].
  exists (3, 1). split; [reflexivity|]. split; [cbn; lia | reflexivity].
Qed.

(** From column 3 of [line_ABC] the step stays in the second run, and
    [GoToBeginOfLine] on [line_ABC] starts synchronized. *)
Lemma synchronized_invariant_witness :
  (exists it',
     operator_inc true it_ABC_3 = Some it' /\
     IsAtEndOfLine it' = false /\
     forward_consistent it' /\ exact_remainder it') /\
  (exists it',
     GoToBeginOfLine it_ABC = Some it' /\
     forward_consistent it' /\ exact_remainder it').
Proof.
  split.
  - apply (proj1 (synchronized_invariant true) it_ABC_3).
    + exact line_ABC_well_formed.
    + cbn. lia.
    + exact it_ABC_3_forward_consistent.
    + reflexivity.
    + cbn. lia.
  - apply (proj2 (synchronized_invariant true) it_ABC (3, 1)).
    + reflexivity.
    + cbn. lia.
    + reflexivity.
    + cbn. lia.
Defined.

(** The invariant as section 3 words it holds of [it_ABC_short], and fails
    after its forward step, which stops on column 1, a pixel of the first run,
    with the run index on the second run. *)
Lemma forward_consistent_not_invariant :
  forward_consistent it_ABC_short /\
  operator_inc false it_ABC_short = Some (mkIterator 1 0 9 1 2 line_ABC tt) /\
  operator_inc true it_ABC_short = Some (mkIterator 1 0 9 1 2 line_ABC tt) /\
  IsAtEndOfLine (mkIterator 1 0 9 1 2 line_ABC tt : ImageScanlineConstIterator Z unit)
    = false /\
  ~ forward_consistent
      (mkIterator 1 0 9 1 2 line_ABC tt : ImageScanlineConstIterator Z unit).
Proof.
  split; [|split; [reflexivity | split; [reflexivity | split; [reflexivity|]]]].
  - split; [cbn; lia|]. split; [reflexivity|].
    exists (3, 1). split; [reflexivity|]. split; [cbn; lia | reflexivity].
  - intros (_ & _ & r & Hr & _ & Hpix).
    cbn in Hr. injection Hr as <-. cbn in Hpix. discriminate.
Qed.

(** The forward scan of [line_ABC] reads [A,A,A,B,B,C,C,C,C] (section 8,
    property 5). *)
Lemma scan_forward_decodes_witness :
  exists it0 vs,
    GoToBeginOfLine it_ABC = Some it0 /\
    scan_forward true 9 it0 = Some vs /\
    vs = [1; 1; 1; 2; 2; 3; 3; 3; 3] /\
    Z.of_nat (length vs) = 9.
Proof.
  destruct (scan_forward_decodes true it_ABC)
    as (it0 & vs & Hgo & Hscan & Hlen & _).
  - discriminate.
  - exact line_ABC_well_formed.
  - split; reflexivity.
  - exists it0, vs. split; [exact Hgo|].
    split; [apply Hscan; cbn; lia|]. split; [|exact Hlen].
    specialize (Hscan 9%nat ltac:(cbn; lia)).
    vm_compute in Hgo. injection Hgo as <-. vm_compute in Hscan.
    injection Hscan as <-. reflexivity.
Defined.

(** Forward then backward across the boundary between the first two runs of
    [line_ABC]. *)
Lemma inc_then_dec_restores_witness :
  exists it1,
    operator_inc true it_ABC_2 = Some it1 /\
    operator_dec it1 = Some it_ABC_2 /\
    m_RealIndex it1 = 1.
Proof.
  destruct (inc_then_dec_restores true it_ABC_2) as [Hdef _].
  - exact it_ABC_2_forward_consistent.
  - cbn. lia.
  - destruct Hdef as (it1 & Hinc & Hdec & Hri).
    + right; right. exists (2, 2). reflexivity.
    + exists it1. split; [exact Hinc|]. split; [exact Hdec|].
      apply Hri; [reflexivity | cbn; lia].
Defined.

(** The backward scan of [line_ABC] reads [C,C,C,C,B,B,A,A,A]. *)
Lemma scan_backward_reverses_witness :
  exists it0 vs,
    GoToBeginOfLine it_ABC = Some it0 /\
    scan_forward true 9 it0 = Some vs /\
    scan_backward 9 (GoToEndOfLine it0) = Some (rev vs) /\
    rev vs = [3; 3; 3; 3; 2; 2; 1; 1; 1].
Proof.
  destruct (scan_backward_reverses true it_ABC)
    as (it0 & vs & Hgo & Hfw & Hbw).
  - discriminate.
  - exact line_ABC_well_formed.
  - split; reflexivity.
  - exists it0, vs. split; [exact Hgo|].
    split; [apply Hfw; cbn; lia|]. split; [apply Hbw; cbn; lia|].
    specialize (Hfw 9%nat ltac:(cbn; lia)).
    vm_compute in Hgo. injection Hgo as <-. vm_compute in Hfw.
    injection Hfw as <-. reflexivity.
Defined.

(** On a region that ends inside the line, here columns [0..3] of
    [line_222], the backward scan from [GoToEndOfLine] starts on the last run
    of the line and reads [3,3,2,2], while the forward scan reads
    [1,1,2,2]. *)
Lemma clipped_backward_scan_differs :
  well_formed line_222 /\
  region_in_line it_222_clipped /\
  GoToBeginOfLine it_222_clipped = Some it_222_clipped /\
  scan_forward false 4 it_222_clipped = Some [1; 1; 2; 2] /\
  scan_forward true 4 it_222_clipped = Some [1; 1; 2; 2] /\
  scan_backward 4 (GoToEndOfLine it_222_clipped) = Some [3; 3; 2; 2] /\
  [3; 3; 2; 2] <> rev [1; 1; 2; 2].
Proof.
  split; [repeat constructor; cbn; lia|].
  split; [split; cbn; lia|].
  repeat (split; [reflexivity|]). discriminate.
Qed.

(** [NextLine] from the first of two lines seeks into the second one; from the
    second one it leaves the iterator on [m_BeginIndex0], and so does every
    further call. *)
Lemma NextLine_spec_witness :
  (exists it',
     NextLine it_two_lines = Some it' /\
     it' = mkIterator 0 0 9 0 4 line_45
             (mkEnumerator [line_ABC; line_45] 1 0 9) /\
     m_Index0 it' = m_BeginIndex0 it') /\
  NextLine it_last_line =
    Some (mkIterator 0 0 9 1 0 line_45
            (mkEnumerator [line_ABC; line_45] 2 0 9)) /\
  NextLine_repeat 3 it_last_line =
    Some (mkIterator 0 0 9 1 0 line_45
            (mkEnumerator [line_ABC; line_45] 2 0 9)).
Proof.
  destruct (NextLine_spec it_two_lines) as [Hseek _].
  destruct (NextLine_spec it_last_line) as [_ Hend].
  split.
  - destruct (Hseek eq_refl) as (l & Hl & _ & Hdef).
    injection Hl as <-.
    destruct Hdef as (it' & Hnext & _ & _ & _ & _ & Hbeg & _).
    + repeat constructor; cbn; lia.
    + cbn. lia.
    + exists it'. split; [exact Hnext|]. split; [|exact (Hbeg eq_refl)].
      vm_compute in Hnext. injection Hnext as <-. reflexivity.
  - destruct (Hend eq_refl) as [Hone Hrep].
    split; [exact Hone | exact (Hrep 2%nat)].
Defined.

(** One pixel, one line: after the line is read and the region is exhausted,
    the iterator is not at the end of its line and its remainder is 0; the
    forward step then reaches [m_EndIndex0] with remainder [-1]. *)
Lemma operator_inc_remainder_negative :
  GoToBeginOfLine it_1
    = Some (mkIterator 0 0 1 0 1 line_1 (mkEnumerator [line_1] 0 0 1)) /\
  operator_inc false (mkIterator 0 0 1 0 1 line_1 (mkEnumerator [line_1] 0 0 1))
    = Some (mkIterator 1 0 1 0 0 line_1 (mkEnumerator [line_1] 0 0 1)) /\
  NextLine (mkIterator 1 0 1 0 0 line_1 (mkEnumerator [line_1] 0 0 1))
    = Some (mkIterator 0 0 1 0 0 line_1 (mkEnumerator [line_1] 1 0 1)) /\
  IsAtEndOfLine (mkIterator 0 0 1 0 0 line_1 (mkEnumerator [line_1] 1 0 1))
    = false /\
  operator_inc false (mkIterator 0 0 1 0 0 line_1 (mkEnumerator [line_1] 1 0 1))
    = Some (mkIterator 1 0 1 0 (-1) line_1 (mkEnumerator [line_1] 1 0 1)) /\
  operator_inc true (mkIterator 0 0 1 0 0 line_1 (mkEnumerator [line_1] 1 0 1))
    = Some (mkIterator 1 0 1 0 (-1) line_1 (mkEnumerator [line_1] 1 0 1)) /\
  IsAtEndOfLine (mkIterator 1 0 1 0 (-1) line_1 (mkEnumerator [line_1] 1 0 1))
    = true /\
  m_SegmentRemainder
    (mkIterator 1 0 1 0 (-1) line_1 (mkEnumerator [line_1] 1 0 1)) <> 0.
Proof.
  repeat (split; [reflexivity|]). cbn. lia.
Qed.

(** [it_3_short] is forward consistent and inside its region, which covers
    the line; it is the state left by [GoToEndOfLine], a backward step and
    [NextLine] on the exhausted region. Its forward step has no defined
    result in either build: it reads a second run of a line that has one. *)
Lemma inc_undefined_when_remainder_short :
  operator_dec (GoToEndOfLine it_3)
    = Some (mkIterator 2 0 3 0 1 line_3 (mkEnumerator [line_3] 0 0 3)) /\
  NextLine (mkIterator 2 0 3 0 1 line_3 (mkEnumerator [line_3] 0 0 3))
    = Some it_3_short /\
  forward_consistent it_3_short /\
  m_BeginIndex0 it_3_short <= m_Index0 it_3_short < m_EndIndex0 it_3_short /\
  covers_line it_3_short /\
  operator_inc false it_3_short = None /\
  operator_inc true it_3_short = None.
Proof.
  split; [reflexivity|]. split; [reflexivity|]. split.
  - split; [cbn; lia|]. split; [reflexivity|].
    exists (3, 7). split; [reflexivity|]. split; [cbn; lia | reflexivity].
  - split; [cbn; lia|]. split; [split; reflexivity|].
    split; reflexivity.
Qed.

(** On an empty region that begins at the start of the line,
    [GoToBeginOfLine] leaves the iterator at the end of the line: it is not
    active and not forward consistent. *)
Lemma goto_begin_empty_region :
  m_BeginIndex0 it_3_empty_region = 0 /\
  run_at (m_RunLengthLine it_3_empty_region) 0 = Some (3, 7) /\
  GoToBeginOfLine it_3_empty_region = Some (mkIterator 0 0 0 0 3 line_3 tt) /\
  IsAtEndOfLine (mkIterator 0 0 0 0 3 line_3 tt : ImageScanlineConstIterator Z unit)
    = true /\
  ~ (0 <= m_Index0 (mkIterator 0 0 0 0 3 line_3 tt : ImageScanlineConstIterator Z unit)
       < m_EndIndex0 (mkIterator 0 0 0 0 3 line_3 tt : ImageScanlineConstIterator Z unit)) /\
  ~ forward_consistent
      (mkIterator 0 0 0 0 3 line_3 tt : ImageScanlineConstIterator Z unit).
Proof.
  repeat (split; [reflexivity|]). split.
  - cbn. lia.
  - intros (Hidx & _). cbn in Hidx. lia.
Qed.

(** Section 8, property 4: one run of ten pixels, region [3..6]. The step
    from column 6 reaches the end of the line with remainder 3. *)
Lemma operator_inc_clipped_end_witness :
  exists it',
    operator_inc true it_X_last = Some it' /\
    IsAtEndOfLine it' = true /\
    m_SegmentRemainder it' = 3 /\
    m_RealIndex it' = 0 /\
    it' <> GoToEndOfLine it'.
Proof.
  destruct (operator_inc_clipped_end true it_X_last)
    as (it' & Hinc & Hend & Hsr & _ & Hri & _ & _ & Hne & _).
  - split; [cbn; lia|]. split; [reflexivity|].
    exists (10, 7). split; [reflexivity|]. split; [cbn; lia | reflexivity].
  - reflexivity.
  - cbn. lia.
  - exists it'. repeat split; assumption.
Defined.

(** ** Concrete runs of the further properties *)

Lemma line_X_well_formed : well_formed line_X.
Proof. repeat constructor; cbn; lia. Qed.

Lemma it_X_first_synchronized : synchronized it_X_first.
Proof.
  split; [|reflexivity].
  split; [cbn; lia|]. split; [reflexivity|].
  exists (10, 7). split; [reflexivity|]. split; [cbn; lia | reflexivity].
Qed.

(** Two steps forward, one back and a jump to the end on [line_ABC]. *)
Lemma calls_frame_witness :
  exists it',
    calls true [CallInc; CallInc; CallDec; CallGoToEndOfLine] it_ABC_2
      = Some it' /\
    m_BeginIndex0 it' = 0 /\ m_EndIndex0 it' = 9 /\
    m_RunLengthLine it' = line_ABC /\
    GoToBeginOfLine it' = GoToBeginOfLine it_ABC_2.
Proof.
  eexists. split; [reflexivity|].
  destruct (calls_frame true [CallInc; CallInc; CallDec; CallGoToEndOfLine]
              it_ABC_2 _ eq_refl) as (Hb & He & Hl & _ & _ & Hgb).
  repeat split; assumption.
Defined.

(** Back from column 3 of [line_ABC] into the first run, and forward again. *)
Lemma dec_then_inc_restores_witness :
  exists it1,
    operator_dec it_ABC_3 = Some it1 /\
    operator_inc true it1 = Some it_ABC_3.
Proof.
  exact (dec_then_inc_restores true it_ABC_3 it_ABC_3_forward_consistent).
Defined.

Lemma goto_end_dec_inc_witness :
  exists it1,
    operator_dec (GoToEndOfLine it_ABC) = Some it1 /\
    m_Index0 it1 = 8 /\
    m_RealIndex it1 = 2 /\
    m_SegmentRemainder it1 = 1 /\
    operator_inc true it1 = Some (GoToEndOfLine it_ABC).
Proof.
  exact (goto_end_dec_inc true it_ABC (4, 3) eq_refl ltac:(cbn; lia)).
Defined.

Lemma dec_before_begin_witness :
  exists it1,
    operator_dec (mkIterator 0 0 9 0 3 line_ABC tt) = Some it1 /\
    m_Index0 it1 = -1 /\
    m_RealIndex it1 = -1 /\
    m_SegmentRemainder it1 = 1 /\
    operator_dec it1 = None.
Proof.
  exact (dec_before_begin it_ABC (mkIterator 0 0 9 0 3 line_ABC tt) eq_refl).
Defined.

Lemma jumps_on_empty_line_witness :
  GoToBeginOfLine it_empty = None /\
  m_RealIndex (GoToEndOfLine it_empty) = -1 /\
  operator_dec (GoToEndOfLine it_empty) = None.
Proof.
  destruct (jumps_on_empty_line it_empty) as [Hiff Hend].
  split; [apply Hiff; reflexivity | exact (Hend eq_refl)].
Defined.

(** Section 8, property 4: the scan of columns [3..6] of [line_X] reads four
    times [X]. *)
Lemma scan_forward_clipped_witness :
  exists vs,
    scan_forward true 4 it_X_first = Some vs /\
    Z.of_nat (length vs) = 4 /\
    vs = [7; 7; 7; 7].
Proof.
  destruct (scan_forward_clipped true it_X_first)
    as (vs & Hscan & Hlen & _).
  - exact line_X_well_formed.
  - cbn. lia.
  - exact it_X_first_synchronized.
  - exists vs. split; [apply Hscan; cbn; lia|]. split; [exact Hlen|].
    specialize (Hscan 4%nat ltac:(cbn; lia)). vm_compute in Hscan.
    injection Hscan as <-. reflexivity.
Defined.

Lemma run_forward_reaches_goto_end_witness :
  run_forward true 7 it_ABC_2 = Some (mkIterator 9 0 9 2 0 line_ABC tt).
Proof.
  apply (run_forward_reaches_goto_end true it_ABC_2).
  - exact line_ABC_well_formed.
  - reflexivity.
  - split; [exact it_ABC_2_forward_consistent | reflexivity].
  - cbn. lia.
Defined.

Lemma run_backward_reaches_goto_begin_witness :
  run_backward 9 (GoToEndOfLine it_ABC)
    = Some (mkIterator 0 0 9 0 3 line_ABC tt).
Proof.
  apply (run_backward_reaches_goto_begin it_ABC).
  - discriminate.
  - exact line_ABC_well_formed.
  - split; reflexivity.
  - cbn. lia.
Defined.

(** The backward scan of columns [3..8] of [line_ABC] reads [C,C,C,C,B,B]. *)
Lemma scan_backward_clipped_begin_witness :
  exists vs,
    scan_backward 6 (GoToEndOfLine it_ABC_tail) = Some (rev vs) /\
    vs = [2; 2; 3; 3; 3; 3].
Proof.
  destruct (scan_backward_clipped_begin it_ABC_tail) as (vs & Hscan & _).
  - discriminate.
  - exact line_ABC_well_formed.
  - cbn. lia.
  - reflexivity.
  - exists vs. split; [apply Hscan; cbn; lia|].
    specialize (Hscan 6%nat ltac:(cbn; lia)). vm_compute in Hscan.
    injection Hscan as Hrev. apply (f_equal (@rev Z)) in Hrev.
    rewrite rev_involutive in Hrev. rewrite <- Hrev. reflexivity.
Defined.

(** Columns [3..6] of [line_X]: stepping to the end and scanning back. *)
Lemma stepped_end_scans_back_witness :
  exists it_end vs,
    run_forward true 4 it_X_first = Some it_end /\
    scan_forward true 4 it_X_first = Some vs /\
    scan_backward 4 it_end = Some (rev vs) /\
    it_end = it_X_end.
Proof.
  destruct (stepped_end_scans_back true it_X_first)
    as (it_end & vs & Hall & _).
  - exact line_X_well_formed.
  - cbn. lia.
  - exact it_X_first_synchronized.
  - reflexivity.
  - destruct (Hall 4%nat ltac:(cbn; lia)) as (Hrun & Hfw & Hbw).
    exists it_end, vs. repeat split; try assumption.
    vm_compute in Hrun. injection Hrun as <-. reflexivity.
Defined.

(** Two release-build steps from the clipped end of [line_X]. *)
Lemma inc_past_end_witness :
  inc_repeat false 2 it_X_end = Some (mkIterator 9 3 7 0 1 line_X tt) /\
  IsAtEndOfLine (mkIterator 9 3 7 0 1 line_X tt : ImageScanlineConstIterator Z unit)
    = false.
Proof.
  split; [reflexivity|].
  exact (proj2 (inc_past_end false 1 it_X_end _ ltac:(cbn; lia) eq_refl)).
Defined.

Lemma NextLine_exhausted_state_witness :
  exists it',
    NextLine it_last_line = Some it' /\
    IsAtEndOfLine it' = false /\
    operator_inc false it' = None.
Proof.
  destruct (NextLine_exhausted_state (H := enumerated_base) false
              it_last_line eq_refl)
    as (it' & Hnext & Hend & _ & _ & Hinc).
  exists it'. split; [exact Hnext|]. split; [exact Hend|].
  apply Hinc; [reflexivity | cbn; lia | cbn; lia | cbn; lia].
Defined.

(** On columns [1..4] of [line_ABC], whose pixels are [A,A,B,B], the scan
    after [GoToBeginOfLine] reads [A,A,A,B]. *)
Lemma goto_begin_reads_line_start_witness :
  exists it0 vs,
    GoToBeginOfLine it_ABC_inner = Some it0 /\
    scan_forward true 4 it0 = Some vs /\
    vs = [1; 1; 1; 2].
Proof.
  destruct (goto_begin_reads_line_start true it_ABC_inner)
    as (it0 & vs & Hgo & Hscan & _).
  - discriminate.
  - exact line_ABC_well_formed.
  - cbn. lia.
  - cbn. lia.
  - exists it0, vs. split; [exact Hgo|]. split; [apply Hscan; cbn; lia|].
    specialize (Hscan 4%nat ltac:(cbn; lia)).
    vm_compute in Hgo. injection Hgo as <-. vm_compute in Hscan.
    injection Hscan as <-. reflexivity.
Defined.

(** On columns [1..4] of [line_ABC] the scan back from [GoToEndOfLine] reads
    [C,C,C,C], the last four pixels of the line. *)
Lemma goto_end_reads_line_end_witness :
  exists vs,
    scan_backward 4 (GoToEndOfLine it_ABC_inner) = Some (rev vs) /\
    vs = [3; 3; 3; 3].
Proof.
  destruct (goto_end_reads_line_end it_ABC_inner) as (vs & Hscan & _).
  - discriminate.
  - exact line_ABC_well_formed.
  - cbn. lia.
  - cbn. lia.
  - exists vs. split; [apply Hscan; cbn; lia|].
    specialize (Hscan 4%nat ltac:(cbn; lia)). vm_compute in Hscan.
    injection Hscan as Hrev. apply (f_equal (@rev Z)) in Hrev.
    rewrite rev_involutive in Hrev. rewrite <- Hrev. reflexivity.
Defined.
